(** * images-to-pdf: the page layout and document assembly of [src/main.ts]

    The development embeds the TypeScript module [src/main.ts] and proves
    properties of its layout arithmetic, of the document it assembles and
    of the list handling around it.

    Modelling choices.

    - The module state ([images], the [#image-list] element, the generate
      button) is a record [World], threaded through a state-and-exception
      monad [M]; a rejected promise or a thrown [TypeError] is the
      exceptional outcome.  The state changes made before an exception
      are kept, as in JavaScript.
    - [await]: [generatePDF] is suspended at each [await loadImage(...)],
      and other event handlers (a click on a remove button, the end of a
      drag, the [load] of a file reader) may run before it resumes.  It
      takes no snapshot of [images]: it reads the array again after
      every [await].  [generatePDFLive] is the function with the
      handlers that run during each [await] as a parameter;
      [generatePDF] is the run during which none runs, in which
      [images] is the same array throughout.
    - The browser's image decoder is a function [decode] from a data URL
      to the loaded element's [width] and [height], or to nothing when
      the [error] event fires.  Loading the same URL twice gives the same
      result.
    - jsPDF is modelled by what the module observes of it: a document is
      its pages in order, the last one being the current page; each page
      has an orientation and the images placed on it.  The sheet format
      is a parameter [Sheet] (its short and long side); [a4] is jsPDF's
      table entry for "a4" in points.
    - [addFiles] starts one [FileReader] per accepted file; what happens
      afterwards is the sequence of their [load] callbacks, in the order
      in which the readers complete.  That sequence is a parameter
      ([arrivals]), as are the ids that [crypto.randomUUID] gives.
    - Sortable has moved the dragged item inside [#image-list] before it
      calls [onEnd]; that move is [dragged].  The handler itself is
      [onEnd], and it is undefined ([None]) where the array would
      receive [undefined].
    - JavaScript numbers: the drawing arithmetic is written once, over an
      interface [JsNumber] of the operations the source uses.  The
      instance [Q_number] interprets them as exact rational arithmetic,
      the instance [float_number] as IEEE 754 binary64 (the JavaScript
      semantics).  Statements that hold for the code as written are
      proved for every instance; the algebraic facts about the fitted box
      are proved for exact arithmetic, that is up to rounding; the
      section on binary64 shows what holds exactly there as well.  The
      two instances differ on a division by zero ([x / 0] is [0] in [Q],
      an infinity or NaN in binary64); the theorems about the box assume
      positive sizes.  They also differ in which ratios are equal: the
      sides of A4 are not binary64 numbers, and rounding moves a ratio
      by a unit in the last place.  What happens when the comparison of
      line 188 meets two equal ratios is therefore stated and proved in
      binary64, on A4. *)

From Stdlib Require Import ZArith NArith QArith Qfield Lqa Floats DecimalString
  DecimalNat.
From stdpp Require Import base decidable option list strings.

Set Warnings "-inexact-float".

Set Default Proof Using "Type".
Local Open Scope string_scope.
Local Open Scope list_scope.

(** ** JavaScript numbers *)

(** The operations of [number] that [generatePDF] uses on non-integers:
    the literals [0] and [2] and the pixel sizes (through [num_of_N]),
    [-], [*], [/] and [>]. *)
Class JsNumber (T : Type) := {
  num_of_N : N -> T;
  num_sub : T -> T -> T;
  num_mul : T -> T -> T;
  num_div : T -> T -> T;
  num_gt : T -> T -> bool
}.

(** Exact rational arithmetic. *)
#[export] Instance Q_number : JsNumber Q := {|
  num_of_N n := inject_Z (Z.of_N n);
  num_sub := Qminus;
  num_mul := Qmult;
  num_div := Qdiv;
  num_gt x y := negb (Qle_bool x y)
|}.

(** IEEE 754 binary64.  The conversion is exact below [2^53]; an image
    element's [width] and [height] are 32-bit. *)
#[export] Instance float_number : JsNumber float := {|
  num_of_N n := PrimFloat.of_uint63 (Uint63.of_Z (Z.of_N n));
  num_sub := PrimFloat.sub;
  num_mul := PrimFloat.mul;
  num_div := PrimFloat.div;
  num_gt x y := PrimFloat.ltb y x
|}.

(** ** Data *)

(** [interface ImageEntry]; of the [File] only the name is read. *)
Record File := { name : string }.

Record ImageEntry := {
  id : string;
  file : File;
  dataUrl : string
}.

(** What [generatePDF] reads of a loaded [HTMLImageElement]: both
    properties are [unsigned long]. *)
Record HTMLImageElement := {
  width : N;
  height : N
}.

(** The strings ["portrait"] and ["landscape"]. *)
Inductive Orientation := Portrait | Landscape.

(** A sheet format, as its two sides in points. *)
Record Sheet (T : Type) := { short : T; long : T }.
Arguments short {T} _.
Arguments long {T} _.

(** One [doc.addImage(data, x, y, w, h)]. *)
Record Placement (T : Type) := {
  imageData : string;
  drawX : T;
  drawY : T;
  drawW : T;
  drawH : T
}.
Arguments Build_Placement {T} _ _ _ _ _.
Arguments imageData {T} _.
Arguments drawX {T} _.
Arguments drawY {T} _.
Arguments drawW {T} _.
Arguments drawH {T} _.

Record Page (T : Type) := {
  orientation : Orientation;
  placed : list (Placement T)
}.
Arguments Build_Page {T} _ _.
Arguments orientation {T} _.
Arguments placed {T} _.

(** A jsPDF document always has a current page, the last one: [new jsPDF]
    creates the first page.  [previous] are the pages before it. *)
Record jsPDF (T : Type) := {
  previous : list (Page T);
  current : Page T
}.
Arguments Build_jsPDF {T} _ _.
Arguments previous {T} _.
Arguments current {T} _.

(** The pages of a document, in order. *)
Definition pages {T} (doc : jsPDF T) : list (Page T) :=
  previous doc ++ [current doc].

(** An element of [#image-list] built by [appendImageElement]: its
    [data-id], the text of its order badge, and the rest of its content. *)
Record ImageItem := {
  dataId : string;
  badge : string;
  imgSrc : string;
  fileName : string
}.

Record Button := {
  disabled : bool;
  textContent : string
}.

(** The state of the page: the module's variables and what it has done
    to its environment ([loads]: the URLs given to [loadImage], in order;
    [saved]: the documents handed to [doc.save], in order). *)
Record World (T : Type) := {
  images : list ImageEntry;
  imageList : list ImageItem;
  generateBtn : Button;
  loads : list string;
  saved : list (string * jsPDF T)
}.
Arguments Build_World {T} _ _ _ _ _.
Arguments images {T} _.
Arguments imageList {T} _.
Arguments generateBtn {T} _.
Arguments loads {T} _.
Arguments saved {T} _.

(** ** The monad of the module's code *)

Inductive Exception :=
  | TypeError            (* a property read on [undefined] *)
  | LoadError (src : string).   (* the promise of [loadImage] rejected *)

Inductive Outcome (A : Type) :=
  | Ok (a : A)
  | Throw (e : Exception).
Arguments Ok {A} _.
Arguments Throw {A} _.

Definition M (T A : Type) : Type := World T -> Outcome A * World T.

Definition ret {T A} (a : A) : M T A := fun w => (Ok a, w).

Definition bind {T A B} (m : M T A) (k : A -> M T B) : M T B :=
  fun w => match m w with
           | (Ok a, w') => k a w'
           | (Throw e, w') => (Throw e, w')
           end.

Definition throw {T A} (e : Exception) : M T A := fun w => (Throw e, w).

(** [try { m } finally { h }] *)
Definition try_finally {T A} (m : M T A) (h : M T unit) : M T A :=
  fun w => match m w with
           | (r, w') => match h w' with
                        | (Ok _, w'') => (r, w'')
                        | (Throw e, w'') => (Throw e, w'')
                        end
           end.

Definition get {T} : M T (World T) := fun w => (Ok w, w).
Definition modify {T} (f : World T -> World T) : M T unit := fun w => (Ok tt, f w).

Declare Scope js_scope.
Delimit Scope js_scope with js.
Notation "x <- m ;; k" := (bind m (fun x => k))
  (at level 100, m at next level, right associativity) : js_scope.
Notation "m ;;; k" := (bind m (fun _ => k))
  (at level 100, right associativity) : js_scope.
Local Open Scope js_scope.

(** ** jsPDF, as the module uses it *)

(** [new jsPDF({ orientation, unit: "pt", format: "a4" })] *)
Definition new_jsPDF {T} (o : Orientation) : jsPDF T :=
  {| previous := []; current := {| orientation := o; placed := [] |} |}.

(** [doc.addPage("a4", o)]: the new page becomes the current page. *)
Definition addPage {T} (o : Orientation) (doc : jsPDF T) : jsPDF T :=
  {| previous := previous doc ++ [current doc];
     current := {| orientation := o; placed := [] |} |}.

(** [doc.addImage(data, x, y, w, h)] draws on the current page. *)
Definition addImage {T} (data : string) (x y w h : T) (doc : jsPDF T) : jsPDF T :=
  {| previous := previous doc;
     current := {| orientation := orientation (current doc);
                   placed := placed (current doc) ++ [Build_Placement data x y w h] |} |}.

(** The size of a page of the sheet format: landscape swaps the sides. *)
Definition pageWidth {T} (sheet : Sheet T) (o : Orientation) : T :=
  match o with Portrait => short sheet | Landscape => long sheet end.

Definition pageHeight {T} (sheet : Sheet T) (o : Orientation) : T :=
  match o with Portrait => long sheet | Landscape => short sheet end.

(** [doc.internal.pageSize.getWidth()] and [getHeight()]: the current page. *)
Definition getWidth {T} (sheet : Sheet T) (doc : jsPDF T) : T :=
  pageWidth sheet (orientation (current doc)).

Definition getHeight {T} (sheet : Sheet T) (doc : jsPDF T) : T :=
  pageHeight sheet (orientation (current doc)).

(** jsPDF's format table: a4 is 595.28 x 841.89 pt. *)
Definition a4 : Sheet Q := {| short := 59528 # 100; long := 84189 # 100 |}.

Definition a4_float : Sheet float :=
  {| short := 595.28%float; long := 841.89%float |}.

(** ** The module *)

(** [Array.prototype.findIndex]: the first index whose element satisfies
    [p], or [-1]. *)
Fixpoint findIndex {A} (p : A -> bool) (l : list A) : Z :=
  match l with
  | [] => -1
  | x :: l' => if p x then 0
               else let r := findIndex p l' in
                    if (r =? -1)%Z then -1 else (r + 1)%Z
  end.

(** [String(n)] for a non-negative integer. *)
Definition String_of_nat (n : nat) : string :=
  NilEmpty.string_of_uint (Nat.to_uint n).

(** [a === b] on strings. *)
Definition str_eq (a b : string) : bool := bool_decide (a = b).

(** [landscape ? "landscape" : "portrait"] *)
Definition orientationOf (isLandscape : bool) : Orientation :=
  if isLandscape then Landscape else Portrait.

(** [img.width > img.height] *)
Definition isLandscape (img : HTMLImageElement) : bool :=
  (height img <? width img)%N.

Section Module.
Context {T : Type} `{JsNumber T}.

(** The browser's decoder and the sheet format in use. *)
Variable decode : string -> option HTMLImageElement.
Variable sheet : Sheet T.

Definition setButton (f : Button -> Button) : M T unit :=
  modify (fun w => {| images := images w; imageList := imageList w;
                      generateBtn := f (generateBtn w);
                      loads := loads w; saved := saved w |}).

Definition setDisabled (b : bool) : M T unit :=
  setButton (fun btn => {| disabled := b; textContent := textContent btn |}).

Definition setTextContent (s : string) : M T unit :=
  setButton (fun btn => {| disabled := disabled btn; textContent := s |}).

(** [function updateButtonState] *)
Definition updateButtonState : M T unit :=
  w <- get ;;
  setDisabled (length (images w) =? 0)%nat.

(** [function updateOrderBadges]: every item is an [.image-item] and has
    its [.order-badge]. *)
Definition renumber (items : list ImageItem) : list ImageItem :=
  imap (fun i item => {| dataId := dataId item;
                         badge := String_of_nat (i + 1);
                         imgSrc := imgSrc item;
                         fileName := fileName item |}) items.

Definition updateOrderBadges : M T unit :=
  modify (fun w => {| images := images w; imageList := renumber (imageList w);
                      generateBtn := generateBtn w;
                      loads := loads w; saved := saved w |}).

(** [imageList.querySelector(`[data-id="${id}"]`)?.remove()]: the first
    item with that [data-id], if there is one, leaves the list. *)
Fixpoint removeFirst (i : string) (items : list ImageItem) : list ImageItem :=
  match items with
  | [] => []
  | item :: items' => if str_eq (dataId item) i then items'
                      else item :: removeFirst i items'
  end.

(** [function removeImage] *)
Definition removeImage (i : string) : M T unit :=
  w <- get ;;
  let idx := findIndex (fun e => str_eq (id e) i) (images w) in
  if (idx =? -1)%Z then ret tt
  else
    modify (fun w => {| images := delete (Z.to_nat idx) (images w);
                        imageList := removeFirst i (imageList w);
                        generateBtn := generateBtn w;
                        loads := loads w; saved := saved w |}) ;;;
    updateOrderBadges ;;;
    updateButtonState.

(** [function appendImageElement] *)
Definition appendImageElement (entry : ImageEntry) : M T unit :=
  modify (fun w => {| images := images w;
                      imageList := imageList w ++
                        [{| dataId := id entry;
                            badge := String_of_nat (length (images w));
                            imgSrc := dataUrl entry;
                            fileName := name (file entry) |}];
                      generateBtn := generateBtn w;
                      loads := loads w; saved := saved w |}).

(** The [reader.onload] callback of [addFiles], without the count of
    loaded files: [images.push(entry); appendImageElement(entry)]. *)
Definition pushImage (entry : ImageEntry) : M T unit :=
  modify (fun w => {| images := images w ++ [entry]; imageList := imageList w;
                      generateBtn := generateBtn w;
                      loads := loads w; saved := saved w |}) ;;;
  appendImageElement entry.

(** The world after [loadImage] was called on each of [srcs], and after
    [doc.save(filename)]. *)
Definition withLoads (w : World T) (srcs : list string) : World T :=
  {| images := images w; imageList := imageList w;
     generateBtn := generateBtn w;
     loads := loads w ++ srcs; saved := saved w |}.

Definition withSaved (w : World T) (filename : string) (doc : jsPDF T) : World T :=
  {| images := images w; imageList := imageList w;
     generateBtn := generateBtn w;
     loads := loads w;
     saved := saved w ++ [(filename, doc)] |}.

(** [entry] loads, and [img] is the element it loads as. *)
Definition decodes (entry : ImageEntry) (img : HTMLImageElement) : Prop :=
  decode (dataUrl entry) = Some img.

(** [function loadImage]: resolves with the element on [load], rejects
    on [error]. *)
Definition loadImage (src : string) : M T HTMLImageElement :=
  modify (fun w => withLoads w [src]) ;;;
  match decode src with
  | Some img => ret img
  | None => throw (LoadError src)
  end.

(** [doc.save(filename)] *)
Definition save (doc : jsPDF T) (filename : string) : M T unit :=
  modify (fun w => withSaved w filename doc).

(** Lines 183-200 of [generatePDF]: the box [(drawX, drawY, drawW,
    drawH)] of an image of [imgW] by [imgH] pixels on a page of [pageW]
    by [pageH].  The two branches of the conditional are named after the
    comments they carry in the source. *)
Definition imgRatioOf (imgW imgH : N) : T :=
  num_div (num_of_N imgW) (num_of_N imgH).

Definition fitToWidth (imgRatio pageW pageH : T) : T * T * T * T :=
  let drawW := pageW in
  let drawH := num_div pageW imgRatio in
  let drawX := num_of_N 0 in
  let drawY := num_div (num_sub pageH drawH) (num_of_N 2) in
  (drawX, drawY, drawW, drawH).

Definition fitToHeight (imgRatio pageW pageH : T) : T * T * T * T :=
  let drawH := pageH in
  let drawW := num_mul pageH imgRatio in
  let drawX := num_div (num_sub pageW drawW) (num_of_N 2) in
  let drawY := num_of_N 0 in
  (drawX, drawY, drawW, drawH).

Definition fit (imgW imgH : N) (pageW pageH : T) : T * T * T * T :=
  let imgRatio := imgRatioOf imgW imgH in
  let pageRatio := num_div pageW pageH in
  if num_gt imgRatio pageRatio then fitToWidth imgRatio pageW pageH
  else fitToHeight imgRatio pageW pageH.

(** The end of the loop body, lines 179-202: measure the current page,
    fit the image to it and draw it. *)
Definition place (entry : ImageEntry) (img : HTMLImageElement) (doc : jsPDF T)
    : jsPDF T :=
  let pageW := getWidth sheet doc in
  let pageH := getHeight sheet doc in
  let '(drawX, drawY, drawW, drawH) := fit (width img) (height img) pageW pageH in
  addImage (dataUrl entry) drawX drawY drawW drawH doc.

(** The page that [generatePDF] is expected to produce for [entry] once
    it is loaded as [img]: oriented after the image, with the image as
    its only content, fitted to the page. *)
Definition pageFor (entry : ImageEntry) (img : HTMLImageElement) : Page T :=
  let o := orientationOf (isLandscape img) in
  let '(drawX, drawY, drawW, drawH) :=
    fit (width img) (height img) (pageWidth sheet o) (pageHeight sheet o) in
  {| orientation := o;
     placed := [Build_Placement (dataUrl entry) drawX drawY drawW drawH] |}.

(** One iteration of the [for] loop of [generatePDF], at index [i] with
    [entry] being [images[i]].  [landscape0] is the variable [landscape]
    of the function.  The block of the
    [else if (landscape !== imgLandscape)] branch is the parameter
    [block]; in the source it holds two comments and no statement. *)
Definition iteration (block : jsPDF T -> M T (jsPDF T)) (landscape0 : bool)
    (i : nat) (entry : ImageEntry) (doc : jsPDF T) : M T (jsPDF T) :=
  img <- loadImage (dataUrl entry) ;;
  let imgLandscape := isLandscape img in
  doc <- (if (0 <? i)%nat then ret (addPage (orientationOf imgLandscape) doc)
          else if negb (eqb landscape0 imgLandscape) then block doc
          else ret doc) ;;
  ret (place entry img doc).

(** The loop of the uninterrupted run, started at index [i] with [rest]
    the entries [images[i]], [images[i+1]], ...: no handler runs during
    the [await]s, so that [images.length] and [images[i]] of lines 168,
    169 and 202 read the array as it was when the loop started.  The
    loop that reads [images] at every step is [forImagesLive] below. *)
Fixpoint forImages (block : jsPDF T -> M T (jsPDF T)) (landscape0 : bool)
    (doc : jsPDF T) (i : nat) (rest : list ImageEntry) : M T (jsPDF T) :=
  match rest with
  | [] => ret doc
  | entry :: rest' =>
      doc <- iteration block landscape0 i entry doc ;;
      forImages block landscape0 doc (S i) rest'
  end.

(** [async function generatePDF] in the uninterrupted run, with the
    block of the dead branch as a parameter.  [images[0].dataUrl] throws
    when [images] is empty.  [generatePDFLive] below is the function
    with the handlers that run during its [await]s. *)
Definition generatePDF_with (block : jsPDF T -> M T (jsPDF T)) : M T unit :=
  w <- get ;;
  match images w !! 0%nat with
  | None => throw TypeError
  | Some first =>
      firstImg <- loadImage (dataUrl first) ;;
      let landscape0 := isLandscape firstImg in
      let doc := new_jsPDF (orientationOf landscape0) in
      doc <- forImages block landscape0 doc 0 (images w) ;;
      save doc "images.pdf"
  end.

(** The uninterrupted run of [generatePDF] as it is in the source: the
    block is empty. *)
Definition generatePDF : M T unit := generatePDF_with (fun doc => ret doc).

(** The click handler of the generate button, when no other handler
    runs during the generation. *)
Definition onGenerateClick : M T unit :=
  w <- get ;;
  if (length (images w) =? 0)%nat then ret tt
  else
    setDisabled true ;;;
    setTextContent "Generating..." ;;;
    try_finally generatePDF
      (setDisabled false ;;;
       setTextContent "Generate PDF" ;;;
       updateButtonState).

(** *** [generatePDF] with the dead branch removed

    The loop body keeps only [if (i > 0) doc.addPage(...)]. *)
Definition iteration_no_branch (i : nat) (entry : ImageEntry) (doc : jsPDF T)
    : M T (jsPDF T) :=
  img <- loadImage (dataUrl entry) ;;
  let imgLandscape := isLandscape img in
  let doc := if (0 <? i)%nat then addPage (orientationOf imgLandscape) doc
             else doc in
  ret (place entry img doc).

Fixpoint forImages_no_branch (doc : jsPDF T) (i : nat) (rest : list ImageEntry)
    : M T (jsPDF T) :=
  match rest with
  | [] => ret doc
  | entry :: rest' =>
      doc <- iteration_no_branch i entry doc ;;
      forImages_no_branch doc (S i) rest'
  end.

Definition generatePDF_no_branch : M T unit :=
  w <- get ;;
  match images w !! 0%nat with
  | None => throw TypeError
  | Some first =>
      firstImg <- loadImage (dataUrl first) ;;
      let landscape0 := isLandscape firstImg in
      let doc := new_jsPDF (orientationOf landscape0) in
      doc <- forImages_no_branch doc 0 (images w) ;;
      save doc "images.pdf"
  end.
End Module.

(** ** A sample session

    Four files: a landscape photo, a portrait one, a square one and one
    whose data does not decode. *)

Definition sampleDecode (src : string) : option HTMLImageElement :=
  if str_eq src "data:image/jpeg;base64,AAAA" then Some {| width := 800; height := 600 |}
  else if str_eq src "data:image/png;base64,BBBB" then Some {| width := 400; height := 600 |}
  else if str_eq src "data:image/png;base64,CCCC" then Some {| width := 500; height := 500 |}
  else None.

Definition wideEntry : ImageEntry :=
  {| id := "id-1"; file := {| name := "wide.jpg" |};
     dataUrl := "data:image/jpeg;base64,AAAA" |}.

Definition tallEntry : ImageEntry :=
  {| id := "id-2"; file := {| name := "tall.png" |};
     dataUrl := "data:image/png;base64,BBBB" |}.

Definition squareEntry : ImageEntry :=
  {| id := "id-3"; file := {| name := "square.png" |};
     dataUrl := "data:image/png;base64,CCCC" |}.

Definition brokenEntry : ImageEntry :=
  {| id := "id-4"; file := {| name := "broken.png" |};
     dataUrl := "data:image/png;base64,????" |}.

(** The page before any file is added. *)
Definition emptyWorld {T} : World T :=
  {| images := []; imageList := [];
     generateBtn := {| disabled := true; textContent := "Generate PDF" |};
     loads := []; saved := [] |}.

(** The page after the files of [entries] were read, in this order. *)
Definition worldWith {T} (entries : list ImageEntry) : World T :=
  snd ((foldr (fun e k => pushImage e ;;; k) updateButtonState entries) emptyWorld).

Definition goodWorld : World Q := worldWith [wideEntry; tallEntry; squareEntry].
Definition badWorld : World Q := worldWith [wideEntry; brokenEntry; tallEntry].

(** ** The rest of the module: adding files and reordering *)

(** An entry of the [FileList] given to [addFiles]: the [File] and its
    [type]. *)
Record PickedFile := {
  picked : File;
  type : string
}.

(** [new Set(["image/jpeg", "image/png"])] *)
Definition allowedTypes : list string := ["image/jpeg"; "image/png"].

(** [Array.from(fileList).filter((f) => allowedTypes.has(f.type))] *)
Definition imageFilesOf (fileList : list PickedFile) : list PickedFile :=
  filter (fun f => type f ∈ allowedTypes) fileList.

(** The [reader.onload] callback of [addFiles] for a batch of [total]
    image files.  [entry] is the entry the callback builds (its [id] from
    [crypto.randomUUID()], its [dataUrl] from [reader.result]); [loaded]
    is the counter shared by the callbacks of the batch, and the result
    is its new value. *)
Definition readerOnload {T} (total : nat) (entry : ImageEntry) (loaded : nat)
    : M T nat :=
  pushImage entry ;;;
  let loaded := S loaded in
  (if (loaded =? total)%nat then updateButtonState else ret tt) ;;;
  ret loaded.

(** The callbacks of the readers that complete, in the order in which
    they complete. *)
Fixpoint onloads {T} (total : nat) (arrivals : list ImageEntry) (loaded : nat)
    : M T nat :=
  match arrivals with
  | [] => ret loaded
  | entry :: arrivals' =>
      loaded <- readerOnload total entry loaded ;;
      onloads total arrivals' loaded
  end.

(** [function addFiles], followed by the [load] events of [arrivals]:
    the batch counts the files of an allowed type, and the counter
    starts at [0]. *)
Definition addFiles {T} (fileList : list PickedFile) (arrivals : list ImageEntry)
    : M T nat :=
  onloads (length (imageFilesOf fileList)) arrivals 0.

(** The event that Sortable passes to [onEnd]: either index may be
    missing. *)
Record SortableEvent := {
  oldIndex : option nat;
  newIndex : option nat
}.

(** [const [moved] = a.splice(old, 1); a.splice(new, 0, moved)] on an
    array.  [splice] clamps a start index past the end, so the insertion
    is total; the removal gives [undefined] when [old] is past the end,
    and then the result is no longer an array of entries: [None]. *)
Definition moveItem {A} (old new : nat) (a : list A) : option (list A) :=
  match a !! old with
  | Some moved =>
      let a := delete old a in
      Some (take new a ++ moved :: drop new a)
  | None => None
  end.

(** The [onEnd] handler given to [Sortable.create].  [None] is the case
    in which [images] would receive [undefined]. *)
Definition onEnd {T} (evt : SortableEvent) (w : World T)
    : option (Outcome unit * World T) :=
  match oldIndex evt, newIndex evt with
  | Some old, Some new =>
      match moveItem old new (images w) with
      | Some a =>
          Some (updateOrderBadges
                  {| images := a; imageList := imageList w;
                     generateBtn := generateBtn w;
                     loads := loads w; saved := saved w |})
      | None => None
      end
  | _, _ => Some (Ok tt, w)
  end.

(** What Sortable has done to [#image-list] when it calls [onEnd]: the
    dragged item went from [old] to [new]. *)
Definition dragged {T} (old new : nat) (w : World T) : option (World T) :=
  match moveItem old new (imageList w) with
  | Some items =>
      Some {| images := images w; imageList := items;
              generateBtn := generateBtn w;
              loads := loads w; saved := saved w |}
  | None => None
  end.

(** The item that [appendImageElement] builds for [entry], with the
    badge of position [pos]. *)
Definition itemOf (pos : nat) (entry : ImageEntry) : ImageItem :=
  {| dataId := id entry;
     badge := String_of_nat pos;
     imgSrc := dataUrl entry;
     fileName := name (file entry) |}.

(** The item list shows [images]: one item per entry, in order, each
    with the badge of its position counted from [1]. *)
Definition rendered {T} (w : World T) : Prop :=
  imageList w = imap (fun i entry => itemOf (S i) entry) (images w).

(** [items] are the items of [entries], whatever their badges say. *)
Definition shows (items : list ImageItem) (entries : list ImageEntry) : Prop :=
  Forall2 (fun item entry =>
             dataId item = id entry /\ imgSrc item = dataUrl entry
             /\ fileName item = name (file entry)) items entries.

(** The button is disabled exactly when there is no image. *)
Definition buttonFollows {T} (w : World T) : Prop :=
  disabled (generateBtn w) = (length (images w) =? 0)%nat.

(** ** Handlers that run while [generatePDF] is suspended *)

(** What an event handler that runs during an [await] does to the page. *)
Definition Handler (T : Type) : Type := World T -> World T.

(** The click on the remove button of the entry with id [i]
    ([removeBtn]'s listener, lines 111-114). *)
Definition removeClick {T} (i : string) : Handler T :=
  fun w => snd (removeImage i w).

(** No handler runs during any [await]. *)
Definition quiet {T} (schedule : list (list (Handler T))) : Prop :=
  Forall (fun handlers => handlers = []) schedule.

Section Live.
Context {T : Type} `{JsNumber T}.
Variable decode : string -> option HTMLImageElement.
Variable sheet : Sheet T.

(** [await loadImage(src)]: the load is started, [handlers] run one
    after the other while the function is suspended, and then the
    promise resolves or rejects. *)
Definition awaitLoad (src : string) (handlers : list (Handler T))
    : M T HTMLImageElement :=
  modify (fun w => withLoads w [src]) ;;;
  modify (fun w => foldl (fun w (h : Handler T) => h w) w handlers) ;;;
  match decode src with
  | Some img => ret img
  | None => throw (LoadError src)
  end.

(** The [for] loop of [generatePDF] from index [i] on, reading [images]
    as it is at each step.  The head of [schedule] holds the handlers
    that run during the [await] of this iteration.  [i < images.length]
    and [images[i]] of line 169 are read before the [await],
    [images[i]] of line 202 after it: it may be another entry by then,
    or [undefined].  Once the schedule is used up no handler runs any
    more, and the rest of the loop is [forImages] on the entries from
    [i] on. *)
Fixpoint forImagesLive (landscape0 : bool) (doc : jsPDF T) (i : nat)
    (schedule : list (list (Handler T))) : M T (jsPDF T) :=
  match schedule with
  | [] =>
      w <- get ;;
      forImages decode sheet (fun doc => ret doc) landscape0 doc i
        (drop i (images w))
  | handlers :: schedule' =>
      w <- get ;;
      match images w !! i with
      | None => ret doc
      | Some entry =>
          img <- awaitLoad (dataUrl entry) handlers ;;
          let imgLandscape := isLandscape img in
          let doc := if (0 <? i)%nat then addPage (orientationOf imgLandscape) doc
                     else if negb (eqb landscape0 imgLandscape) then doc
                     else doc in
          w' <- get ;;
          match images w' !! i with
          | None => throw TypeError
          | Some entry' =>
              forImagesLive landscape0 (place sheet entry' img doc) (S i) schedule'
          end
      end
  end.

(** [async function generatePDF]: the first batch of [schedule] runs
    during the [await] of line 160, the following ones during the
    [await]s of the loop. *)
Definition generatePDFLive (schedule : list (list (Handler T))) : M T unit :=
  w <- get ;;
  match images w !! 0%nat with
  | None => throw TypeError
  | Some first =>
      firstImg <- awaitLoad (dataUrl first) (hd [] schedule) ;;
      let landscape0 := isLandscape firstImg in
      let doc := new_jsPDF (orientationOf landscape0) in
      doc <- forImagesLive landscape0 doc 0 (tl schedule) ;;
      save doc "images.pdf"
  end.

(** *** The same with the dead branch removed *)
Fixpoint forImagesLive_no_branch (doc : jsPDF T) (i : nat)
    (schedule : list (list (Handler T))) : M T (jsPDF T) :=
  match schedule with
  | [] =>
      w <- get ;;
      forImages_no_branch decode sheet doc i (drop i (images w))
  | handlers :: schedule' =>
      w <- get ;;
      match images w !! i with
      | None => ret doc
      | Some entry =>
          img <- awaitLoad (dataUrl entry) handlers ;;
          let imgLandscape := isLandscape img in
          let doc := if (0 <? i)%nat then addPage (orientationOf imgLandscape) doc
                     else doc in
          w' <- get ;;
          match images w' !! i with
          | None => throw TypeError
          | Some entry' =>
              forImagesLive_no_branch (place sheet entry' img doc) (S i) schedule'
          end
      end
  end.

Definition generatePDFLive_no_branch (schedule : list (list (Handler T)))
    : M T unit :=
  w <- get ;;
  match images w !! 0%nat with
  | None => throw TypeError
  | Some first =>
      firstImg <- awaitLoad (dataUrl first) (hd [] schedule) ;;
      let landscape0 := isLandscape firstImg in
      let doc := new_jsPDF (orientationOf landscape0) in
      doc <- forImagesLive_no_branch doc 0 (tl schedule) ;;
      save doc "images.pdf"
  end.

(** The click handler of the generate button, with the handlers that
    run during the generation. *)
Definition onGenerateClickLive (schedule : list (list (Handler T))) : M T unit :=
  w <- get ;;
  if (length (images w) =? 0)%nat then ret tt
  else
    setDisabled true ;;;
    setTextContent "Generating..." ;;;
    try_finally (generatePDFLive schedule)
      (setDisabled false ;;;
       setTextContent "Generate PDF" ;;;
       updateButtonState).
End Live.

(** ** Running the monad *)

Section Runs.
Context {T : Type} `{JsNumber T}.
Variable decode : string -> option HTMLImageElement.
Variable sheet : Sheet T.

Lemma bind_ok {A B} (m : M T A) (k : A -> M T B) (w : World T) a w' :
  m w = (Ok a, w') -> bind m k w = k a w'.
Proof. unfold bind. now intros ->. Qed.

Lemma bind_throw {A B} (m : M T A) (k : A -> M T B) (w : World T) e w' :
  m w = (Throw e, w') -> bind m k w = (Throw e, w').
Proof. unfold bind. now intros ->. Qed.

Lemma bind_ext {A B} (m m' : M T A) (k k' : A -> M T B) (w : World T) :
  m w = m' w -> (forall a w', k a w' = k' a w') -> bind m k w = bind m' k' w.
Proof.
  intros Hm Hk. unfold bind. rewrite Hm.
  destruct (m' w) as [[a|e] w']; [apply Hk|reflexivity].
Qed.

Lemma withLoads_nil (w : World T) : withLoads w [] = w.
Proof. destruct w. unfold withLoads. cbn. now rewrite app_nil_r. Qed.

Lemma withLoads_app (w : World T) a b :
  withLoads (withLoads w a) b = withLoads w (a ++ b).
Proof. unfold withLoads. cbn. now rewrite app_assoc. Qed.

Lemma loadImage_ok src img (w : World T) :
  decode src = Some img -> loadImage decode src w = (Ok img, withLoads w [src]).
Proof. intros E. unfold loadImage, bind, modify. now rewrite E. Qed.

Lemma loadImage_fail src (w : World T) :
  decode src = None ->
  loadImage decode src w = (Throw (LoadError src), withLoads w [src]).
Proof. intros E. unfold loadImage, bind, modify. now rewrite E. Qed.

(** *** The pages drawn by [place] *)

Lemma pages_place_addPage e img (doc : jsPDF T) :
  pages (place sheet e img (addPage (orientationOf (isLandscape img)) doc))
  = pages doc ++ [pageFor sheet e img].
Proof.
  unfold place, pageFor, getWidth, getHeight, pages. cbn.
  destruct (fit _ _ _ _) as [[[x y] w'] h]. reflexivity.
Qed.

Lemma pages_place_new e img :
  pages (place sheet e img (new_jsPDF (orientationOf (isLandscape img))))
  = [pageFor sheet e img].
Proof.
  unfold place, pageFor, getWidth, getHeight, pages. cbn.
  destruct (fit _ _ _ _) as [[[x y] w'] h]. reflexivity.
Qed.

(** *** One iteration *)

Lemma iteration_next block l0 i e img doc (w : World T) :
  decode (dataUrl e) = Some img ->
  iteration decode sheet block l0 (S i) e doc w
  = (Ok (place sheet e img (addPage (orientationOf (isLandscape img)) doc)),
     withLoads w [dataUrl e]).
Proof.
  intros E. unfold iteration.
  rewrite (bind_ok _ _ _ _ _ (loadImage_ok _ _ w E)). reflexivity.
Qed.

Lemma iteration_first block e img doc (w : World T) :
  decode (dataUrl e) = Some img ->
  iteration decode sheet block (isLandscape img) 0 e doc w
  = (Ok (place sheet e img doc), withLoads w [dataUrl e]).
Proof.
  intros E. unfold iteration.
  rewrite (bind_ok _ _ _ _ _ (loadImage_ok _ _ w E)). cbn.
  destruct (isLandscape img); reflexivity.
Qed.

Lemma iteration_fail block l0 i e doc (w : World T) :
  decode (dataUrl e) = None ->
  iteration decode sheet block l0 i e doc w
  = (Throw (LoadError (dataUrl e)), withLoads w [dataUrl e]).
Proof.
  intros E. unfold iteration.
  now rewrite (bind_throw _ _ _ _ _ (loadImage_fail _ w E)).
Qed.

(** *** The loop after its first iteration *)

Lemma forImages_next block l0 rest : forall imgs doc i (w : World T),
  Forall2 (decodes decode) rest imgs ->
  exists doc',
    forImages decode sheet block l0 doc (S i) rest w
    = (Ok doc', withLoads w (map dataUrl rest))
    /\ pages doc' = pages doc ++ zip_with (pageFor sheet) rest imgs.
Proof.
  induction rest as [|e rest IH]; intros imgs doc i w HF.
  - inversion HF; subst. exists doc. cbn.
    now rewrite withLoads_nil, app_nil_r.
  - inversion HF as [|? img ? imgs' He HF']; subst.
    destruct (IH imgs' (place sheet e img
                (addPage (orientationOf (isLandscape img)) doc)) (S i)
                (withLoads w [dataUrl e]) HF') as (doc' & Hrun & Hpages).
    exists doc'. split.
    + cbn [forImages].
      rewrite (bind_ok _ _ _ _ _ (iteration_next block l0 i e img doc w He)).
      rewrite Hrun, withLoads_app. reflexivity.
    + rewrite Hpages, pages_place_addPage, <- app_assoc. reflexivity.
Qed.

(** From the second iteration on, neither the block of the dead branch
    nor the variable [landscape] is looked at. *)
Lemma iteration_next_any block block' l0 l0' i e doc (w : World T) :
  iteration decode sheet block l0 (S i) e doc w
  = iteration decode sheet block' l0' (S i) e doc w.
Proof. reflexivity. Qed.

Lemma forImages_next_any block block' l0 l0' rest : forall doc i (w : World T),
  forImages decode sheet block l0 doc (S i) rest w
  = forImages decode sheet block' l0' doc (S i) rest w.
Proof.
  induction rest as [|e rest IH]; intros doc i w; [reflexivity|].
  cbn [forImages]. apply bind_ext; [reflexivity|]. intros doc' w'. apply IH.
Qed.

Lemma iteration_next_no_branch block l0 i e doc (w : World T) :
  iteration decode sheet block l0 (S i) e doc w
  = iteration_no_branch decode sheet (S i) e doc w.
Proof.
  unfold iteration, iteration_no_branch, bind.
  destruct (loadImage _ _ _) as [[img|err] w']; reflexivity.
Qed.

Lemma forImages_next_no_branch block l0 rest : forall doc i (w : World T),
  forImages decode sheet block l0 doc (S i) rest w
  = forImages_no_branch decode sheet doc (S i) rest w.
Proof.
  induction rest as [|e rest IH]; intros doc i w; [reflexivity|].
  cbn [forImages forImages_no_branch].
  apply bind_ext; [apply iteration_next_no_branch|]. intros doc' w'. apply IH.
Qed.

(** An entry that does not load makes the loop throw; until then the
    loop has only logged its loads. *)
Lemma forImages_next_fail block l0 rest :
  Exists (fun e => decode (dataUrl e) = None) rest ->
  exists src srcs,
    decode src = None
    /\ forall doc i (w : World T),
         forImages decode sheet block l0 doc (S i) rest w
         = (Throw (LoadError src), withLoads w srcs).
Proof.
  induction rest as [|e rest IH]; intros HE; [inversion HE|].
  destruct (decode (dataUrl e)) as [img|] eqn:E.
  - destruct IH as (src & srcs & Hsrc & Hrun).
    { inversion HE as [? ? Hd|]; subst; [congruence|assumption]. }
    exists src, ([dataUrl e] ++ srcs). split; [exact Hsrc|]. intros doc i w.
    cbn [forImages].
    rewrite (bind_ok _ _ _ _ _ (iteration_next block l0 i e img doc w E)).
    now rewrite Hrun, withLoads_app.
  - exists (dataUrl e), [dataUrl e]. split; [exact E|]. intros doc i w.
    cbn [forImages].
    now rewrite (bind_throw _ _ _ _ _ (iteration_fail block l0 (S i) e doc w E)).
Qed.

(** *** The whole function *)

(** When every entry loads, [generatePDF] saves one document whose pages
    are the expected pages of the entries, in order. *)
Lemma generatePDF_with_ok block (w : World T) e rest imgs :
  images w = e :: rest ->
  Forall2 (decodes decode) (images w) imgs ->
  exists doc,
    generatePDF_with decode sheet block w
    = (Ok tt, withSaved (withLoads w (dataUrl e :: map dataUrl (images w)))
                "images.pdf" doc)
    /\ pages doc = zip_with (pageFor sheet) (images w) imgs.
Proof.
  intros Hi HF. rewrite Hi in HF |- *.
  inversion HF as [|? img ? imgs' He HF']; subst.
  destruct (forImages_next block (isLandscape img) rest imgs'
              (place sheet e img (new_jsPDF (orientationOf (isLandscape img))))
              0 (withLoads (withLoads w [dataUrl e]) [dataUrl e]) HF')
    as (doc & Hrun & Hpages).
  exists doc. split.
  - unfold generatePDF_with.
    rewrite (bind_ok get _ w w w eq_refl), Hi. cbn [lookup list_lookup].
    rewrite (bind_ok _ _ _ _ _ (loadImage_ok _ _ w He)). cbv zeta.
    cbn [forImages].
    erewrite (bind_ok (bind _ _)).
    2:{ erewrite bind_ok; [apply Hrun|]. now apply iteration_first. }
    unfold save, modify. rewrite !withLoads_app. reflexivity.
  - rewrite Hpages, pages_place_new. reflexivity.
Qed.

(** The block of the dead branch is never run: [generatePDF] does the
    same whatever the block is. *)
Lemma generatePDF_with_any block block' (w : World T) :
  generatePDF_with decode sheet block w = generatePDF_with decode sheet block' w.
Proof.
  unfold generatePDF_with.
  rewrite !(bind_ok get _ w w w eq_refl).
  destruct (images w) as [|e rest]; [reflexivity|].
  cbn [lookup list_lookup].
  destruct (decode (dataUrl e)) as [img|] eqn:E.
  - rewrite !(bind_ok _ _ _ _ _ (loadImage_ok _ _ w E)). cbv zeta.
    cbn [forImages]. apply bind_ext; [|reflexivity].
    erewrite !bind_ok by (now apply iteration_first).
    apply forImages_next_any.
  - now rewrite !(bind_throw _ _ _ _ _ (loadImage_fail _ w E)).
Qed.

(** *** What the saved document looks like *)

Lemma all_decode (l : list ImageEntry) :
  Forall (fun e => is_Some (decode (dataUrl e))) l ->
  exists imgs, Forall2 (decodes decode) l imgs.
Proof.
  induction 1 as [|e l [img He] _ [imgs IH]].
  - exists []. constructor.
  - exists (img :: imgs). now constructor.
Qed.

Lemma expected_page_lookup (l : list ImageEntry) imgs i e img :
  Forall2 (decodes decode) l imgs ->
  l !! i = Some e -> decode (dataUrl e) = Some img ->
  zip_with (pageFor sheet) l imgs !! i = Some (pageFor sheet e img).
Proof.
  intros HF Hl He.
  destruct (Forall2_lookup_l _ _ _ _ _ HF Hl) as (img' & Hk & Hd).
  unfold decodes in Hd. rewrite He in Hd. injection Hd as <-.
  rewrite lookup_zip_with, Hl. cbn. now rewrite Hk.
Qed.

Lemma generatePDF_pages block (w : World T) :
  images w <> [] ->
  Forall (fun e => is_Some (decode (dataUrl e))) (images w) ->
  exists doc srcs,
    generatePDF_with decode sheet block w
    = (Ok tt, withSaved (withLoads w srcs) "images.pdf" doc)
    /\ length (pages doc) = length (images w)
    /\ forall i e img,
         images w !! i = Some e -> decode (dataUrl e) = Some img ->
         pages doc !! i = Some (pageFor sheet e img).
Proof.
  intros Hne Hall. destruct (all_decode _ Hall) as (imgs & HF).
  destruct (images w) as [|e rest] eqn:Hi; [done|].
  rewrite <- Hi in HF.
  destruct (generatePDF_with_ok block w e rest imgs Hi HF) as (doc & Hrun & Hp).
  exists doc, (dataUrl e :: map dataUrl (images w)). rewrite <- Hi.
  split; [exact Hrun|]. split.
  - rewrite Hp, length_zip_with. apply Forall2_length in HF. lia.
  - intros i e' img Hl He. rewrite Hp. now apply expected_page_lookup.
Qed.

Lemma generatePDF_saves block (w : World T) :
  images w <> [] ->
  Forall (fun e => is_Some (decode (dataUrl e))) (images w) ->
  exists doc w',
    generatePDF_with decode sheet block w = (Ok tt, w')
    /\ saved w' = saved w ++ [("images.pdf", doc)]
    /\ length (pages doc) = length (images w)
    /\ forall i e img,
         images w !! i = Some e -> decode (dataUrl e) = Some img ->
         pages doc !! i = Some (pageFor sheet e img).
Proof.
  intros Hne Hall.
  destruct (generatePDF_pages block w Hne Hall) as (doc & srcs & Hrun & Hlen & Hp).
  exists doc, (withSaved (withLoads w srcs) "images.pdf" doc). auto.
Qed.

(** The expected page of an entry, field by field. *)
Lemma pageFor_spec e img :
  exists pl,
    pageFor sheet e img
    = {| orientation := orientationOf (isLandscape img); placed := [pl] |}
    /\ imageData pl = dataUrl e
    /\ (drawX pl, drawY pl, drawW pl, drawH pl)
       = fit (width img) (height img)
           (pageWidth sheet (orientationOf (isLandscape img)))
           (pageHeight sheet (orientationOf (isLandscape img))).
Proof.
  unfold pageFor. destruct (fit _ _ _ _) as [[[x y] w'] h].
  eexists. split; [reflexivity|]. split; reflexivity.
Qed.

(** What [place] does to a document: it draws on the current page and
    leaves the list of pages as it is. *)
Lemma place_spec e img (doc : jsPDF T) :
  previous (place sheet e img doc) = previous doc
  /\ orientation (current (place sheet e img doc)) = orientation (current doc)
  /\ exists pl,
       placed (current (place sheet e img doc)) = placed (current doc) ++ [pl]
       /\ imageData pl = dataUrl e.
Proof.
  unfold place. destruct (fit _ _ _ _) as [[[x y] w'] h]. cbn.
  split; [reflexivity|]. split; [reflexivity|]. eexists. split; reflexivity.
Qed.

Lemma orientationOf_landscape img :
  orientationOf (isLandscape img) = Landscape <-> (height img < width img)%N.
Proof.
  unfold orientationOf, isLandscape.
  destruct (N.ltb_spec (height img) (width img)); split; intros; try done; lia.
Qed.

(** ** The document: one page per image *)

(** The uninterrupted run: when [images] is not empty and every image
    loads, [generatePDF] saves a document with exactly as many pages as there
    are images, page [i] showing image [i] and nothing else.  The
    iteration for the first image draws on the page that [new jsPDF]
    created and adds none; each later iteration appends exactly one page,
    after the pages already there, and draws its image on it. *)
Lemma generatePDF_one_page_per_image (w : World T) :
  images w <> [] ->
  Forall (fun e => is_Some (decode (dataUrl e))) (images w) ->
  (exists doc w',
     generatePDF decode sheet w = (Ok tt, w')
     /\ saved w' = saved w ++ [("images.pdf", doc)]
     /\ length (pages doc) = length (images w)
     /\ forall i e, images w !! i = Some e ->
          exists p pl, pages doc !! i = Some p /\ placed p = [pl]
                       /\ imageData pl = dataUrl e)
  /\ (forall e img (w0 : World T),
        images w !! 0%nat = Some e -> decode (dataUrl e) = Some img ->
        exists doc1 w1 pl,
          iteration decode sheet (fun d => ret d) (isLandscape img) 0 e
            (new_jsPDF (orientationOf (isLandscape img))) w0 = (Ok doc1, w1)
          /\ pages doc1 = [current doc1]
          /\ placed (current doc1) = [pl] /\ imageData pl = dataUrl e)
  /\ (forall i e img l0 doc0 (w0 : World T),
        (0 < i)%nat -> images w !! i = Some e -> decode (dataUrl e) = Some img ->
        exists doc1 w1 pl,
          iteration decode sheet (fun d => ret d) l0 i e doc0 w0 = (Ok doc1, w1)
          /\ pages doc1 = pages doc0 ++ [current doc1]
          /\ placed (current doc1) = [pl] /\ imageData pl = dataUrl e).
Proof.
  intros Hne Hall. split; [|split].
  - destruct (generatePDF_saves (fun d => ret d) w Hne Hall)
      as (doc & w' & Hrun & Hs & Hlen & Hp).
    exists doc, w'. repeat split; try assumption.
    intros i e Hl.
    assert (Hd : is_Some (decode (dataUrl e))).
    { rewrite Forall_forall in Hall. apply Hall. eapply list_elem_of_lookup_2, Hl. }
    destruct Hd as [img Hd].
    destruct (pageFor_spec e img) as (pl & Hpf & Hdata & _).
    exists (pageFor sheet e img), pl. rewrite (Hp i e img Hl Hd), Hpf. auto.
  - intros e img w0 _ Hd.
    destruct (place_spec e img (new_jsPDF (orientationOf (isLandscape img))))
      as (Hprev & _ & pl & Hpl & Hdata).
    eexists _, _, pl. split; [apply iteration_first, Hd|].
    unfold pages. rewrite Hprev. auto.
  - intros i e img l0 doc0 w0 Hi _ Hd. destruct i as [|i]; [lia|].
    destruct (place_spec e img (addPage (orientationOf (isLandscape img)) doc0))
      as (Hprev & _ & pl & Hpl & Hdata).
    eexists _, _, pl. split; [apply iteration_next, Hd|].
    unfold pages at 1. rewrite Hprev. auto.
Qed.

(** The uninterrupted run: in the saved document the page of an image
    is landscape exactly when the image's pixel width is greater than its pixel height.  The
    orientation of page [i] is a function of image [i] alone, whatever
    the first page is. *)
Lemma page_orientation_follows_its_image (w : World T) :
  images w <> [] ->
  Forall (fun e => is_Some (decode (dataUrl e))) (images w) ->
  exists doc w',
    generatePDF decode sheet w = (Ok tt, w')
    /\ saved w' = saved w ++ [("images.pdf", doc)]
    /\ forall i e img,
         images w !! i = Some e -> decode (dataUrl e) = Some img ->
         exists p, pages doc !! i = Some p
                   /\ orientation p = orientationOf (isLandscape img)
                   /\ (orientation p = Landscape <-> (height img < width img)%N).
Proof.
  intros Hne Hall.
  destruct (generatePDF_saves (fun d => ret d) w Hne Hall)
    as (doc & w' & Hrun & Hs & Hlen & Hp).
  exists doc, w'. repeat split; try assumption.
  intros i e img Hl Hd. exists (pageFor sheet e img).
  split; [now apply Hp|].
  destruct (pageFor_spec e img) as (pl & -> & _). cbn.
  split; [reflexivity|apply orientationOf_landscape].
Qed.


(** ** Failure of a load *)

Lemma generatePDF_with_fail block (l : list ImageEntry) :
  Exists (fun e => decode (dataUrl e) = None) l ->
  exists src srcs,
    decode src = None
    /\ forall w : World T,
         images w = l ->
         generatePDF_with decode sheet block w
         = (Throw (LoadError src), withLoads w srcs).
Proof.
  intros HE. destruct l as [|e rest]; [inversion HE|].
  destruct (decode (dataUrl e)) as [img|] eqn:E.
  - destruct (forImages_next_fail block (isLandscape img) rest)
      as (src & srcs & Hsrc & Hrun).
    { inversion HE as [? ? Hd|]; subst; [congruence|assumption]. }
    exists src, ([dataUrl e] ++ [dataUrl e] ++ srcs). split; [exact Hsrc|].
    intros w Hi. unfold generatePDF_with.
    rewrite (bind_ok get _ w w w eq_refl), Hi. cbn [lookup list_lookup].
    rewrite (bind_ok _ _ _ _ _ (loadImage_ok _ _ w E)). cbv zeta.
    cbn [forImages].
    erewrite (bind_throw (bind _ _)).
    2:{ erewrite bind_ok; [apply Hrun|]. now apply iteration_first. }
    now rewrite !withLoads_app.
  - exists (dataUrl e), [dataUrl e]. split; [exact E|].
    intros w Hi. unfold generatePDF_with.
    rewrite (bind_ok get _ w w w eq_refl), Hi. cbn [lookup list_lookup].
    now rewrite (bind_throw _ _ _ _ _ (loadImage_fail _ w E)).
Qed.


(** ** Empty input *)

(** C7: with no image in [images], a click on the generate button returns
    at once and leaves the world as it is: no load is logged, nothing is
    saved, the button and the lists are untouched.  [generatePDF] itself,
    which the handler does not reach, would throw on [images[0]] before
    loading or building anything. *)
Theorem empty_input_is_a_no_op (w : World T) :
  images w = [] ->
  onGenerateClick decode sheet w = (Ok tt, w)
  /\ generatePDF decode sheet w = (Throw TypeError, w).
Proof.
  intros Hi. split.
  - unfold onGenerateClick. rewrite (bind_ok get _ w w w eq_refl), Hi. reflexivity.
  - unfold generatePDF, generatePDF_with.
    rewrite (bind_ok get _ w w w eq_refl), Hi. reflexivity.
Qed.

(** ** The dead branch *)

Lemma iteration_no_branch_first e img doc (w : World T) :
  decode (dataUrl e) = Some img ->
  iteration_no_branch decode sheet 0 e doc w
  = (Ok (place sheet e img doc), withLoads w [dataUrl e]).
Proof.
  intros E. unfold iteration_no_branch.
  now rewrite (bind_ok _ _ _ _ _ (loadImage_ok _ _ w E)).
Qed.

Lemma generatePDF_with_no_branch block (w : World T) :
  generatePDF_with decode sheet block w = generatePDF_no_branch decode sheet w.
Proof.
  unfold generatePDF_with, generatePDF_no_branch.
  rewrite !(bind_ok get _ w w w eq_refl).
  destruct (images w) as [|e rest]; [reflexivity|].
  cbn [lookup list_lookup].
  destruct (decode (dataUrl e)) as [img|] eqn:E.
  - rewrite !(bind_ok _ _ _ _ _ (loadImage_ok _ _ w E)). cbv zeta.
    cbn [forImages forImages_no_branch]. apply bind_ext; [|reflexivity].
    rewrite (bind_ok _ _ _ _ _ (iteration_first block e img _ _ E)).
    rewrite (bind_ok _ _ _ _ _ (iteration_no_branch_first e img _ _ E)).
    apply forImages_next_no_branch.
  - now rewrite !(bind_throw _ _ _ _ _ (loadImage_fail _ w E)).
Qed.

Lemma generatePDF_with_ok_inv block (w w' : World T) :
  generatePDF_with decode sheet block w = (Ok tt, w') ->
  images w <> [] /\ Forall (fun e => is_Some (decode (dataUrl e))) (images w).
Proof.
  intros Hrun. split.
  - intros Hi. revert Hrun. unfold generatePDF_with.
    rewrite (bind_ok get _ w w w eq_refl), Hi. discriminate.
  - destruct (Forall_Exists_dec (fun e => is_Some (decode (dataUrl e)))
                (fun e => decode (dataUrl e) = None)) with (l := images w)
      as [HF|HE]; [|exact HF|].
    { intros e. destruct (decode (dataUrl e)); [left; eauto|right; reflexivity]. }
    destruct (generatePDF_with_fail block (images w) HE) as (src & srcs & _ & Hf).
    rewrite (Hf w eq_refl) in Hrun. discriminate.
Qed.

(** The uninterrupted run never takes the branch guarded by [i == 0]
    and [landscape !== imgLandscape].  Whatever statements the block
    held, [generatePDF] would behave the same; in particular it equals
    the function without the branch.  At [i = 0] the two flags come from
    two loads of the same first image, so the guard is false; and on
    success the first page of the saved document has the orientation that
    the rule gives for the first image. *)
Lemma dead_branch_is_dead (w : World T) :
  (forall block,
     generatePDF_with decode sheet block w = generatePDF decode sheet w)
  /\ generatePDF decode sheet w = generatePDF_no_branch decode sheet w
  /\ (forall e firstImg img (w1 w1' w2 w2' : World T),
        images w !! 0%nat = Some e ->
        loadImage decode (dataUrl e) w1 = (Ok firstImg, w1') ->
        loadImage decode (dataUrl e) w2 = (Ok img, w2') ->
        negb (eqb (isLandscape firstImg) (isLandscape img)) = false)
  /\ (forall w',
        generatePDF decode sheet w = (Ok tt, w') ->
        exists doc e img p,
          saved w' = saved w ++ [("images.pdf", doc)]
          /\ images w !! 0%nat = Some e /\ decode (dataUrl e) = Some img
          /\ pages doc !! 0%nat = Some p
          /\ orientation p = orientationOf (isLandscape img)).
Proof.
  split; [|split; [|split]].
  - intros block. apply generatePDF_with_any.
  - apply generatePDF_with_no_branch.
  - intros e firstImg img w1 w1' w2 w2' _ H1 H2.
    destruct (decode (dataUrl e)) as [img0|] eqn:E.
    + rewrite (loadImage_ok _ _ _ E) in H1. rewrite (loadImage_ok _ _ _ E) in H2.
      injection H1 as <- _. injection H2 as <- _.
      now destruct (isLandscape img0).
    + rewrite (loadImage_fail _ _ E) in H1. discriminate.
  - intros w' Hrun.
    destruct (generatePDF_with_ok_inv _ w w' Hrun) as [Hne Hall].
    destruct (generatePDF_saves (fun d => ret d) w Hne Hall)
      as (doc & w'' & Hrun' & Hs & _ & Hp).
    unfold generatePDF in Hrun. rewrite Hrun' in Hrun. injection Hrun as ->.
    destruct (images w) as [|e rest] eqn:Hi; [done|].
    assert (Hd : is_Some (decode (dataUrl e))) by (now inversion Hall).
    destruct Hd as [img Hd].
    exists doc, e, img, (pageFor sheet e img).
    repeat split; try assumption.
    + apply Hp; [reflexivity|exact Hd].
    + now destruct (pageFor_spec e img) as (pl & -> & _).
Qed.

(** ** Removing an image *)

Lemma findIndex_absent {A} (p : A -> bool) (l : list A) :
  Forall (fun x => p x = false) l -> findIndex p l = (-1)%Z.
Proof.
  induction 1 as [|x l Hx _ IH]; [reflexivity|].
  cbn. now rewrite Hx, IH.
Qed.

(** C10: [removeImage] with an id that no entry of [images] carries
    returns at once: the list of images, the rendered item list and
    everything else in the world stay as they are. *)
Theorem removeImage_unknown_id (w : World T) (i : string) :
  (forall e, e ∈ images w -> id e <> i) ->
  removeImage i w = (Ok tt, w).
Proof.
  intros Hno. unfold removeImage.
  rewrite (bind_ok get _ w w w eq_refl).
  rewrite findIndex_absent; [reflexivity|].
  apply Forall_forall. intros e He.
  unfold str_eq. apply bool_decide_eq_false. now apply Hno.
Qed.
End Runs.

(** ** The fitted box, in exact arithmetic

    From here on the arithmetic is that of [Q_number].  Equality of
    rationals is [==]: [1 # 2] and [2 # 4] are the same number. *)

Section Fit.
Local Open Scope Q_scope.

Lemma num_gt_true (x y : Q) : num_gt x y = true <-> y < x.
Proof.
  cbn. rewrite negb_true_iff, <- not_true_iff_false, Qle_bool_iff. split.
  - apply Qnot_le_lt.
  - apply Qlt_not_le.
Qed.

Lemma num_gt_false (x y : Q) : num_gt x y = false <-> x <= y.
Proof. cbn. now rewrite negb_false_iff, Qle_bool_iff. Qed.

Lemma imgRatio_pos (imgW imgH : N) :
  (0 < imgW)%N -> (0 < imgH)%N -> 0 < imgRatioOf imgW imgH.
Proof.
  intros Hw Hh. unfold imgRatioOf. cbn.
  apply Qlt_shift_div_l.
  - change 0 with (inject_Z 0). rewrite <- Zlt_Qlt. lia.
  - rewrite Qmult_0_l. change 0 with (inject_Z 0). rewrite <- Zlt_Qlt. lia.
Qed.

Lemma imgRatio_square (n : N) : (0 < n)%N -> imgRatioOf n n == 1.
Proof.
  intros Hn. unfold imgRatioOf. cbn. field.
  change 0 with (inject_Z 0). rewrite inject_Z_injective. lia.
Qed.

Lemma div_mul_cancel (a b : Q) : 0 < b -> b * (a / b) == a.
Proof. intros Hb. apply Qmult_div_r. lra. Qed.

(** C4: for an image of positive pixel size on a page of positive size,
    the box computed by lines 183-200 lies inside the page, and it is
    centred: on the fitted axis the offset is [0] and the box spans the
    page, on the other axis the two margins are equal.  The arithmetic is
    exact, so the inequalities hold without a tolerance; this is the
    statement that rounding can only perturb. *)
Theorem fitted_box_inside_page (imgW imgH : N) (pageW pageH : Q) :
  (0 < imgW)%N -> (0 < imgH)%N -> 0 < pageW -> 0 < pageH ->
  let '(x, y, w, h) := fit imgW imgH pageW pageH in
  0 <= x /\ 0 <= y /\ x + w <= pageW /\ y + h <= pageH
  /\ x == (pageW - w) / 2 /\ y == (pageH - h) / 2.
Proof.
  intros Hw Hh HpW HpH.
  pose proof (imgRatio_pos imgW imgH Hw Hh) as Hr.
  pose proof (div_mul_cancel pageW pageH HpH) as Hpr.
  unfold fit. set (r := imgRatioOf imgW imgH) in *. clearbody r.
  destruct (num_gt r (num_div pageW pageH)) eqn:Hgt.
  - apply num_gt_true in Hgt. cbn in Hgt.
    pose proof (div_mul_cancel pageW r Hr) as Hh'.
    unfold fitToWidth. cbn.
    set (h := pageW / r) in *. set (pr := pageW / pageH) in *.
    clearbody h pr.
    assert (Hle : h <= pageH).
    { apply Qnot_lt_le. intros Hlt.
      assert (0 < (h - pageH) * r) by (apply Qmult_lt_0_compat; lra).
      assert (0 < (r - pr) * pageH) by (apply Qmult_lt_0_compat; lra).
      nra. }
    change (inject_Z 0) with 0. change (inject_Z 2) with 2.
    unfold Qdiv. change (/ 2) with (1 # 2).
    repeat split; try lra.
  - apply num_gt_false in Hgt. cbn in Hgt.
    unfold fitToHeight. cbn.
    set (pr := pageW / pageH) in *. clearbody pr.
    assert (Hle : pageH * r <= pageW).
    { assert (0 <= (pr - r) * pageH) by (apply Qmult_le_0_compat; lra).
      nra. }
    change (inject_Z 0) with 0. change (inject_Z 2) with 2.
    unfold Qdiv. change (/ 2) with (1 # 2).
    repeat split; try lra.
Qed.

(** In exact arithmetic: when the image's ratio equals the page's
    ratio, the comparison [imgRatio > pageRatio] is false, so the
    fit-to-height branch is taken; its box is the whole page at offset
    zero, and the fit-to-width branch would give the same box.  The
    binary64 computation does not share the last part on a portrait
    page, as the section on the tie in binary64 shows. *)
Lemma tie_in_exact_arithmetic (imgW imgH : N) (pageW pageH : Q) :
  0 < pageW -> 0 < pageH ->
  imgRatioOf imgW imgH == pageW / pageH ->
  num_gt (imgRatioOf imgW imgH) (num_div pageW pageH) = false
  /\ fit imgW imgH pageW pageH = fitToHeight (imgRatioOf imgW imgH) pageW pageH
  /\ (let '(x, y, w, h) := fitToHeight (imgRatioOf imgW imgH) pageW pageH in
      w == pageW /\ h == pageH /\ x == 0 /\ y == 0)
  /\ (let '(x, y, w, h) := fitToWidth (imgRatioOf imgW imgH) pageW pageH in
      w == pageW /\ h == pageH /\ x == 0 /\ y == 0).
Proof.
  intros HpW HpH Heq.
  assert (Hgt : num_gt (imgRatioOf imgW imgH) (num_div pageW pageH) = false).
  { apply num_gt_false. cbn. rewrite Heq. apply Qle_refl. }
  split; [exact Hgt|]. split; [unfold fit; now rewrite Hgt|].
  pose proof (div_mul_cancel pageW pageH HpH) as Hpr.
  set (r := imgRatioOf imgW imgH) in *.
  assert (Hr : 0 < r).
  { rewrite Heq. apply Qlt_shift_div_l; lra. }
  pose proof (div_mul_cancel pageW r Hr) as Hh.
  assert (Hw' : pageH * r == pageW) by (now rewrite Heq).
  assert (Hh' : pageW / r == pageH) by nra.
  clearbody r. split.
  - unfold fitToHeight. cbn.
    change (inject_Z 0) with 0. change (inject_Z 2) with 2.
    set (w := pageH * r) in *. clearbody w.
    unfold Qdiv. change (/ 2) with (1 # 2).
    repeat split; lra.
  - unfold fitToWidth. cbn.
    change (inject_Z 0) with 0. change (inject_Z 2) with 2.
    set (h := pageW / r) in *. clearbody h.
    unfold Qdiv. change (/ 2) with (1 # 2).
    repeat split; lra.
Qed.

(** C8, as the code has it: a square image of positive size gets a
    portrait page; on a sheet whose short side is less than its long side
    the page's ratio is below [1] while the image's ratio is [1], so the
    comparison [imgRatio > pageRatio] is true and the fit-to-width branch
    is taken: the box is as wide as the page, as high as it is wide, and
    centred vertically. *)
Theorem square_image_fits_to_width (img : HTMLImageElement) (sheet : Sheet Q) :
  0 < short sheet -> short sheet < long sheet ->
  (0 < width img)%N -> width img = height img ->
  let o := orientationOf (isLandscape img) in
  let pageW := pageWidth sheet o in
  let pageH := pageHeight sheet o in
  let imgRatio := imgRatioOf (width img) (height img) in
  o = Portrait
  /\ pageW / pageH < 1
  /\ imgRatio == 1
  /\ num_gt imgRatio (num_div pageW pageH) = true
  /\ fit (width img) (height img) pageW pageH = fitToWidth imgRatio pageW pageH
  /\ (let '(x, y, w, h) := fit (width img) (height img) pageW pageH in
      w == pageW /\ h == pageW /\ x == 0 /\ y == (pageH - pageW) / 2).
Proof.
  intros Hs Hsl Hw Hsq o. 
  assert (Ho : o = Portrait).
  { unfold o, orientationOf, isLandscape. rewrite <- Hsq, N.ltb_irrefl. reflexivity. }
  rewrite Ho. cbn [pageWidth pageHeight]. cbv zeta.
  rewrite <- Hsq.
  pose proof (imgRatio_square (width img) Hw) as Hr.
  assert (Hpr : short sheet / long sheet < 1).
  { apply Qlt_shift_div_r; lra. }
  assert (Hgt : num_gt (imgRatioOf (width img) (width img))
                  (num_div (short sheet) (long sheet)) = true).
  { apply num_gt_true. cbn. rewrite Hr. exact Hpr. }
  split; [reflexivity|]. split; [exact Hpr|]. split; [exact Hr|].
  split; [exact Hgt|]. unfold fit. rewrite Hgt. split; [reflexivity|].
  set (r := imgRatioOf (width img) (width img)) in *. clearbody r.
  assert (Hh : short sheet / r == short sheet) by (rewrite Hr; field).
  unfold fitToWidth. cbn.
  change (inject_Z 0) with 0. change (inject_Z 2) with 2.
  set (h := short sheet / r) in *. clearbody h.
  unfold Qdiv. change (/ 2) with (1 # 2).
  repeat split; lra.
Qed.
End Fit.

(** ** The sample session *)

Lemma goodWorld_images : images goodWorld = [wideEntry; tallEntry; squareEntry].
Proof. reflexivity. Qed.

Lemma goodWorld_loads :
  Forall (fun e => is_Some (sampleDecode (dataUrl e))) (images goodWorld).
Proof.
  rewrite goodWorld_images.
  repeat (constructor; [eexists; reflexivity|]). constructor.
Qed.

Lemma goodWorld_not_empty : images goodWorld <> [].
Proof. rewrite goodWorld_images. discriminate. Qed.


Lemma badWorld_images : images badWorld = [wideEntry; brokenEntry; tallEntry].
Proof. reflexivity. Qed.


Lemma empty_input_is_a_no_op_witness :
  onGenerateClick sampleDecode a4 emptyWorld = (Ok tt, emptyWorld).
Proof.
  exact (proj1 (empty_input_is_a_no_op sampleDecode a4 emptyWorld eq_refl)).
Defined.

Lemma removeImage_unknown_id_witness :
  removeImage "id-9" goodWorld = (Ok tt, goodWorld).
Proof.
  apply (removeImage_unknown_id goodWorld "id-9").
  apply Forall_forall. rewrite goodWorld_images.
  repeat (constructor; [discriminate|]). constructor.
Defined.

Lemma fitted_box_inside_page_witness :
  let '(x, y, w, h) := fit 800 600 (84189 # 100) (59528 # 100) in
  (0 <= x /\ 0 <= y /\ x + w <= 84189 # 100 /\ y + h <= 59528 # 100
   /\ x == ((84189 # 100) - w) / 2 /\ y == ((59528 # 100) - h) / 2)%Q.
Proof.
  apply (fitted_box_inside_page 800 600 (84189 # 100) (59528 # 100));
    reflexivity.
Defined.

Lemma square_image_fits_to_width_witness :
  fit 500 500 (short a4) (long a4)
  = fitToWidth (imgRatioOf 500 500) (short a4) (long a4).
Proof.
  destruct (square_image_fits_to_width {| width := 500; height := 500 |} a4)
    as (_ & _ & _ & _ & Hfit & _); [reflexivity..|exact Hfit].
Defined.

(** C8 as it was stated fails: a square image of 500 by 500 pixels on
    portrait A4 does not take the fit-to-height branch. *)
Lemma square_image_not_fitted_to_height :
  let img := {| width := 500; height := 500 |} in
  let o := orientationOf (isLandscape img) in
  let pageW := pageWidth a4 o in
  let pageH := pageHeight a4 o in
  let imgRatio := imgRatioOf (width img) (height img) in
  width img = height img
  /\ ~ (o = Portrait
        /\ (pageW / pageH < 1)%Q
        /\ num_gt imgRatio (num_div pageW pageH) = false
        /\ (let '(x, y, w, h) := fit (width img) (height img) pageW pageH in
            (w == pageW \/ h == pageH)%Q)).
Proof.
  split; [reflexivity|]. intros (_ & _ & Hbranch & _).
  vm_compute in Hbranch. discriminate.
Qed.

(** ** The same computations in binary64 *)

(** The landscape photo of 800 by 600 pixels on its landscape A4 page. *)
Example fit_800x600_binary64 :
  fit 800 600 (pageWidth a4_float Landscape) (pageHeight a4_float Landscape)
  = (24.091666666666697, 0, 793.70666666666659, 595.27999999999997)%float.
Proof. reflexivity. Qed.

(** A square image on portrait A4 is fitted to the width in binary64 too. *)
Example square_binary64 :
  num_gt (imgRatioOf 500 500)
    (num_div (pageWidth a4_float Portrait) (pageHeight a4_float Portrait)) = true
  /\ fit 500 500 (pageWidth a4_float Portrait) (pageHeight a4_float Portrait)
     = (0, 123.30500000000001, 595.27999999999997, 595.27999999999997)%float.
Proof. split; reflexivity. Qed.

(** *** A square image in binary64

    In binary64 a finite non-zero number divided by itself is exactly
    [1], so the ratio of a square image is [1] as in exact arithmetic.
    The facts about [of_uint63] and [/] come from the specification of
    the primitive floats by [SpecFloat]. *)

Section Binary64.
Local Open Scope Z_scope.

Lemma digits2_pos_size p : digits2_pos p = Pos.size p.
Proof. induction p; cbn; congruence. Qed.

Lemma digits2_pos_iter_xO p k :
  digits2_pos (Pos.iter xO p k) = (digits2_pos p + k)%positive.
Proof.
  induction k using Pos.peano_ind.
  - cbn. now rewrite Pos.add_1_r.
  - rewrite Pos.iter_succ. cbn. rewrite IHk. now rewrite Pos.add_succ_r.
Qed.

Lemma digits2_pos_small p : Zpos p < 2 ^ 53 -> Zpos (digits2_pos p) <= 53.
Proof.
  intros Hp. rewrite digits2_pos_size.
  pose proof (Pos.size_le p) as Hle.
  destruct (Z_le_gt_dec (Zpos (Pos.size p)) 53) as [|Hgt]; [assumption|exfalso].
  apply Pos2Z.pos_le_pos in Hle. rewrite Pos2Z.inj_pow in Hle.
  assert (H54 : 2 ^ 54 <= 2 ^ Zpos (Pos.size p)) by (apply Z.pow_le_mono_r; lia).
  change (2 ^ 54) with (2 * 2 ^ 53) in H54. lia.
Qed.

(** A mantissa that is already in canonical position is not rounded. *)
Lemma binary_round_aux_canonical s m e :
  canonical_mantissa prec emax m e = true -> (e <=? emax - prec) = true ->
  binary_round_aux prec emax s (Zpos m) e loc_Exact = S754_finite s m e.
Proof.
  intros Hc He. unfold canonical_mantissa in Hc. apply Z.eqb_eq in Hc.
  unfold binary_round_aux, shr_fexp. cbn [Zdigits2].
  rewrite Hc, Z.sub_diag.
  cbn [shr shr_record_of_loc shr_m loc_of_shr_record round_nearest_even Zdigits2].
  rewrite Hc, Z.sub_diag. cbn [shr shr_record_of_loc shr_m]. now rewrite He.
Qed.

(** A positive integer below [2^53] converts to a finite, non-zero
    number. *)
Lemma binary_round_small p :
  Zpos p < 2 ^ 53 ->
  exists m e, binary_round prec emax false p 0 = S754_finite false m e.
Proof.
  intros Hp. apply digits2_pos_small in Hp.
  unfold binary_round, shl_align.
  assert (Hf : fexp prec emax (Zpos (digits2_pos p) + 0)
               = Zpos (digits2_pos p) - 53).
  { unfold fexp, emin, prec, emax. lia. }
  rewrite Hf, Z.sub_0_r.
  destruct (Zpos (digits2_pos p) - 53) as [|q|q] eqn:E.
  - eexists _, _. apply binary_round_aux_canonical; [|reflexivity].
    unfold canonical_mantissa. apply Z.eqb_eq. exact Hf.
  - lia.
  - eexists _, _. apply binary_round_aux_canonical.
    + unfold canonical_mantissa. apply Z.eqb_eq.
      rewrite digits2_pos_iter_xO. unfold fexp, emin, prec, emax. lia.
    + unfold emax, prec. apply Z.leb_le. lia.
Qed.

Lemma SFdiv_same s m e :
  SFdiv prec emax (S754_finite s m e) (S754_finite s m e) = Prim2SF 1%float.
Proof.
  unfold SFdiv, SFdiv_core_binary. rewrite !Z.sub_diag.
  change (Z.min (fexp prec emax 0) 0) with (-53).
  change (0 - -53) with 53.
  rewrite Z.shiftl_mul_pow2 by lia.
  destruct (Z.div_eucl (Zpos m * 2 ^ 53) (Zpos m)) as [q r] eqn:E.
  assert (Hq : q = 2 ^ 53).
  { change q with (fst (q, r)). rewrite <- E.
    change (fst (Z.div_eucl ?a ?b)) with (a / b).
    rewrite Z.mul_comm. apply Z.div_mul. lia. }
  assert (Hr : r = 0).
  { change r with (snd (q, r)). rewrite <- E.
    change (snd (Z.div_eucl ?a ?b)) with (a mod b).
    rewrite Z.mul_comm. apply Z.mod_mul. lia. }
  subst q r. unfold new_location.
  replace (xorb s s) with false by (now destruct s).
  destruct (Z.even (Zpos m)); reflexivity.
Qed.

Lemma imgRatio_square_binary64 (n : N) :
  (0 < n < 2 ^ 53)%N -> imgRatioOf (T := float) n n = 1%float.
Proof.
  intros Hn. unfold imgRatioOf. cbn [num_div num_of_N float_number].
  apply Prim2SF_inj. rewrite FloatAxioms.div_spec.
  rewrite FloatAxioms.of_uint63_spec, Uint63.of_Z_spec.
  assert (Hz : Z.of_N n < 2 ^ 53).
  { change (2 ^ 53) with (Z.of_N (2 ^ 53)). lia. }
  rewrite Z.mod_small by (change Uint63.wB with (2 ^ 63); lia).
  destruct n as [|p]; [lia|]. cbn [Z.of_N binary_normalize].
  destruct (binary_round_small p Hz) as (m & e & ->).
  apply SFdiv_same.
Qed.

(** The amended C8 under the JavaScript semantics: every square image
    of positive size (below [2^53]) is fitted to the width of its
    portrait A4 page, in the same box. *)
Lemma binary64_square_image_fit (img : HTMLImageElement) :
  (0 < width img < 2 ^ 53)%N -> width img = height img ->
  let o := orientationOf (isLandscape img) in
  let pageW := pageWidth a4_float o in
  let pageH := pageHeight a4_float o in
  o = Portrait
  /\ num_gt (imgRatioOf (width img) (height img)) (num_div pageW pageH) = true
  /\ fit (width img) (height img) pageW pageH
     = (0, 123.30500000000001, 595.27999999999997, 595.27999999999997)%float.
Proof.
  intros Hw Hsq o.
  assert (Ho : o = Portrait).
  { unfold o, orientationOf, isLandscape. now rewrite <- Hsq, N.ltb_irrefl. }
  rewrite Ho. cbv zeta. rewrite <- Hsq. unfold fit.
  rewrite (imgRatio_square_binary64 (width img) Hw).
  repeat split; reflexivity.
Qed.
End Binary64.

(** An image in the proportions of landscape A4: the ratios are equal as
    binary64 numbers, and both branches give the whole page. *)
Example tie_binary64 :
  let pageW := pageWidth a4_float Landscape in
  let pageH := pageHeight a4_float Landscape in
  num_gt (imgRatioOf 84189 59528) (num_div pageW pageH) = false
  /\ fit 84189 59528 pageW pageH = (0%float, 0%float, pageW, pageH)
  /\ fitToWidth (imgRatioOf 84189 59528) pageW pageH = (0%float, 0%float, pageW, pageH).
Proof. repeat split; reflexivity. Qed.

(** *** The tie in binary64

    [==] on two numbers of which one is finite and not zero holds only
    when they are the same number. *)
Lemma float_eqb_finite (x y : float) (s : bool) (m : positive) (e : Z) :
  Prim2SF y = S754_finite s m e -> PrimFloat.eqb x y = true -> x = y.
Proof.
  intros Hy Hxy. rewrite FloatAxioms.eqb_spec, Hy in Hxy.
  apply Prim2SF_inj. rewrite Hy.
  unfold SFeqb, SFcompare in Hxy.
  destruct (Prim2SF x) as [sx|sx| |sx mx ex]; try discriminate.
  - now destruct s.
  - now destruct sx, s.
  - destruct sx, s; try discriminate;
      destruct (Z.compare ex e) eqn:He; try discriminate;
      apply Z.compare_eq in He; subst ex;
      destruct (Pos.compare_cont Eq mx m) eqn:Hm; try discriminate;
      apply Pos.compare_eq in Hm; now subst mx.
Qed.




(** ** The sample session, run *)

(** Two images, the first portrait and the second landscape: two pages,
    portrait then landscape. *)
Example portrait_then_landscape :
  exists w',
    generatePDF sampleDecode a4 (worldWith [tallEntry; wideEntry]) = (Ok tt, w')
    /\ map (fun '(filename, doc) => (filename, map orientation (pages doc)))
         (saved w')
       = [("images.pdf", [Portrait; Landscape])]
    /\ loads w' = [dataUrl tallEntry; dataUrl tallEntry; dataUrl wideEntry].
Proof.
  exists (snd (generatePDF sampleDecode a4 (worldWith [tallEntry; wideEntry]))).
  repeat split; reflexivity.
Qed.

(** A load that fails in the middle: the first image was loaded twice,
    the second load is rejected, the third image is never loaded and
    nothing is saved. *)
Example broken_in_the_middle :
  exists w',
    generatePDF sampleDecode a4 badWorld
    = (Throw (LoadError (dataUrl brokenEntry)), w')
    /\ saved w' = []
    /\ loads w' = [dataUrl wideEntry; dataUrl wideEntry; dataUrl brokenEntry].
Proof.
  exists (snd (generatePDF sampleDecode a4 badWorld)).
  repeat split; reflexivity.
Qed.

(** Removing the second of three images: the entry and its item go, and
    the badges are renumbered. *)
Example removeImage_known_id :
  exists w' : World Q,
    removeImage "id-2" goodWorld = (Ok tt, w')
    /\ images w' = [wideEntry; squareEntry]
    /\ map (fun item => (dataId item, badge item)) (imageList w')
       = [("id-1", "1"); ("id-3", "2")]
    /\ generateBtn w' = generateBtn goodWorld.
Proof.
  exists (snd (removeImage "id-2" goodWorld)).
  repeat split; reflexivity.
Qed.

(** ** The item list follows [images] *)

Section Lists.
Context {T : Type}.

Lemma get_run (w : World T) : get w = (Ok w, w).
Proof. reflexivity. Qed.

Lemma findIndex_first {A} (p : A -> bool) (l1 : list A) (e : A) (l2 : list A) :
  Forall (fun x => p x = false) l1 -> p e = true ->
  findIndex p (l1 ++ e :: l2) = Z.of_nat (length l1).
Proof.
  intros Hl1 He. induction Hl1 as [|x l1 Hx _ IH].
  - cbn. now rewrite He.
  - cbn [app findIndex length]. rewrite Hx, IH.
    destruct (Z.eqb_spec (Z.of_nat (length l1)) (-1)); lia.
Qed.

Lemma findIndex_cases {A} (p : A -> bool) (l : list A) :
  (findIndex p l = (-1)%Z /\ Forall (fun x => p x = false) l)
  \/ (exists l1 e l2, l = l1 ++ e :: l2 /\ p e = true
                      /\ Forall (fun x => p x = false) l1).
Proof.
  induction l as [|x l IH].
  - left. split; [reflexivity|constructor].
  - destruct (p x) eqn:Hx.
    + right. exists [], x, l. repeat split; [exact Hx|constructor].
    + destruct IH as [[Hi Hall]|(l1 & e & l2 & -> & He & Hl1)].
      * left. split; [cbn; now rewrite Hx, Hi|now constructor].
      * right. exists (x :: l1), e, l2. repeat split; [exact He|now constructor].
Qed.

(** *** Items and entries *)

Lemma shows_rendered (l : list ImageEntry) (f : nat -> nat) :
  shows (imap (fun i entry => itemOf (f i) entry) l) l.
Proof.
  revert f. induction l as [|e l IH]; intros f; [constructor|].
  constructor; [repeat split|]. apply (IH (f ∘ S)).
Qed.

Lemma renumber_from (n : nat) (items : list ImageItem) (l : list ImageEntry) :
  shows items l ->
  imap (fun i item => {| dataId := dataId item;
                         badge := String_of_nat (n + i + 1);
                         imgSrc := imgSrc item;
                         fileName := fileName item |}) items
  = imap (fun i entry => itemOf (S (n + i)) entry) l.
Proof.
  intros Hs. revert n. induction Hs as [|item e items l (Hid & Hsrc & Hname) _ IH];
    intros n; [reflexivity|].
  cbn [imap]. f_equal.
  - unfold itemOf. rewrite Hid, Hsrc, Hname. do 2 f_equal. lia.
  - specialize (IH (S n)).
    etransitivity; [|etransitivity; [exact IH|]]; apply imap_ext; intros i x _; cbn.
    + now replace (n + S i + 1) with (S (n + i + 1)) by lia.
    + now replace (n + S i) with (S (n + i)) by lia.
Qed.

Lemma renumber_shows (items : list ImageItem) (l : list ImageEntry) :
  shows items l ->
  renumber items = imap (fun i entry => itemOf (S i) entry) l.
Proof. intros Hs. exact (renumber_from 0 items l Hs). Qed.

Lemma removeFirst_shows (i : string) items (l1 : list ImageEntry) e l2 :
  shows items (l1 ++ e :: l2) ->
  Forall (fun x => str_eq (id x) i = false) l1 -> str_eq (id e) i = true ->
  shows (removeFirst i items) (l1 ++ l2).
Proof.
  intros Hs Hl1 He. revert items Hs.
  induction Hl1 as [|x l1 Hx _ IH]; intros items Hs.
  - inversion Hs as [|item ? items' ? (Hid & _) Hs']; subst.
    cbn. now rewrite Hid, He.
  - inversion Hs as [|item ? items' ? (Hid & Hrest) Hs']; subst.
    cbn [removeFirst app]. rewrite Hid, Hx. constructor; [now split|].
    now apply IH.
Qed.

Lemma moveItem_shows old new items (l : list ImageEntry) items' :
  shows items l -> moveItem old new items = Some items' ->
  exists l', moveItem old new l = Some l' /\ shows items' l'.
Proof.
  unfold moveItem. intros Hs Hm.
  destruct (items !! old) as [item|] eqn:Hi; [|discriminate].
  injection Hm as <-.
  destruct (Forall2_lookup_l _ _ _ _ _ Hs Hi) as (e & -> & He).
  eexists. split; [reflexivity|].
  apply Forall2_app; [apply Forall2_take, Forall2_delete, Hs|].
  constructor; [exact He|]. apply Forall2_drop, Forall2_delete, Hs.
Qed.
End Lists.

(** ** Removing an image that is there *)

Section Removing.
Context {T : Type}.

Lemma str_eq_true (a b : string) : str_eq a b = true <-> a = b.
Proof. unfold str_eq. apply bool_decide_eq_true. Qed.

Lemma str_eq_false (a b : string) : str_eq a b = false <-> a <> b.
Proof. unfold str_eq. apply bool_decide_eq_false. Qed.

Lemma removeImage_run (w : World T) (i : string) l1 e l2 :
  images w = l1 ++ e :: l2 -> id e = i -> (forall x, x ∈ l1 -> id x <> i) ->
  removeImage i w
  = (Ok tt,
     {| images := l1 ++ l2;
        imageList := renumber (removeFirst i (imageList w));
        generateBtn := {| disabled := (length (l1 ++ l2) =? 0)%nat;
                          textContent := textContent (generateBtn w) |};
        loads := loads w; saved := saved w |}).
Proof.
  intros Hi He Hl1. unfold removeImage.
  rewrite (bind_ok get _ w w w eq_refl), Hi.
  rewrite findIndex_first.
  - destruct (Z.eqb_spec (Z.of_nat (length l1)) (-1)) as [E|_]; [lia|].
    rewrite Nat2Z.id.
    unfold updateOrderBadges, updateButtonState, setDisabled, setButton,
      bind, modify, get. cbn.
    now rewrite Hi, delete_middle.
  - apply Forall_forall. intros x Hx. apply str_eq_false. now apply Hl1.
  - now apply str_eq_true.
Qed.

(** X1: [removeImage] with an id that some entry carries takes the first
    such entry out of [images] and leaves the others in their order; it
    removes the first item with that [data-id], renumbers the badges,
    and disables the button exactly when no image is left; it loads and
    saves nothing.  When the ids are pairwise distinct, no entry with
    that id is left. *)
Theorem removeImage_removes_first (w : World T) (i : string) l1 e l2 :
  images w = l1 ++ e :: l2 -> id e = i -> (forall x, x ∈ l1 -> id x <> i) ->
  removeImage i w
  = (Ok tt,
     {| images := l1 ++ l2;
        imageList := renumber (removeFirst i (imageList w));
        generateBtn := {| disabled := (length (l1 ++ l2) =? 0)%nat;
                          textContent := textContent (generateBtn w) |};
        loads := loads w; saved := saved w |})
  /\ (NoDup (map id (images w)) -> forall x, x ∈ l1 ++ l2 -> id x <> i).
Proof.
  intros Hi He Hl1. split; [now apply (removeImage_run w i l1 e l2)|].
  rewrite Hi, map_app. cbn [map]. intros Hnd x Hx Hxi.
  apply NoDup_app in Hnd as (_ & Hdisj & Hnd2).
  apply NoDup_cons in Hnd2 as [Hnotin _].
  apply elem_of_app in Hx as [Hx|Hx].
  - now apply (Hl1 x).
  - apply Hnotin. rewrite He, <- Hxi. apply list_elem_of_fmap. now exists x.
Qed.

(** X2: [removeImage] keeps the page consistent.  If the item list shows
    [images] (one item per entry, in order, badges counting from 1) and
    the button is disabled exactly when [images] is empty, the same holds
    afterwards, for an id that is there and for one that is not; and the
    call does not throw. *)
Theorem removeImage_keeps_the_page_consistent (w : World T) (i : string) :
  rendered w -> buttonFollows w ->
  fst (removeImage i w) = Ok tt
  /\ rendered (snd (removeImage i w))
  /\ buttonFollows (snd (removeImage i w)).
Proof.
  intros Hr Hb.
  destruct (findIndex_cases (fun e => str_eq (id e) i) (images w))
    as [[Hidx Hall]|(l1 & e & l2 & Hi & He & Hl1)].
  - unfold removeImage. rewrite (bind_ok get _ w w w eq_refl), Hidx. cbn. auto.
  - rewrite (removeImage_run w i l1 e l2 Hi).
    + cbn. repeat split. unfold rendered. cbn.
      apply renumber_shows, (removeFirst_shows i _ l1 e l2); try assumption.
      rewrite <- Hi, Hr. apply shows_rendered.
    + now apply str_eq_true.
    + intros x Hx. apply str_eq_false.
      rewrite Forall_forall in Hl1. now apply Hl1.
Qed.
End Removing.

(** ** Adding files *)

Section Adding.
Context {T : Type}.

Lemma readerOnload_run (total : nat) (entry : ImageEntry) (loaded : nat)
    (w : World T) :
  readerOnload total entry loaded w
  = (Ok (S loaded),
     {| images := images w ++ [entry];
        imageList := imageList w ++ [itemOf (S (length (images w))) entry];
        generateBtn :=
          if (S loaded =? total)%nat
          then {| disabled := false; textContent := textContent (generateBtn w) |}
          else generateBtn w;
        loads := loads w; saved := saved w |}).
Proof.
  unfold readerOnload.
  destruct (S loaded =? total)%nat;
    unfold pushImage, appendImageElement, updateButtonState,
      setDisabled, setButton, bind, modify, get, ret; cbn;
    rewrite !length_app, !Nat.add_1_r; reflexivity.
Qed.

Lemma onloads_run (total : nat) (arrivals : list ImageEntry) :
  forall (loaded : nat) (w : World T),
  exists w',
    onloads total arrivals loaded w = (Ok (loaded + length arrivals), w')
    /\ images w' = images w ++ arrivals
    /\ imageList w'
       = imageList w
         ++ imap (fun k e => itemOf (S (length (images w) + k)) e) arrivals
    /\ loads w' = loads w /\ saved w' = saved w
    /\ textContent (generateBtn w') = textContent (generateBtn w)
    /\ (loaded < total <= loaded + length arrivals ->
        disabled (generateBtn w') = false)
    /\ (~ (loaded < total <= loaded + length arrivals) ->
        generateBtn w' = generateBtn w).
Proof.
  induction arrivals as [|e arrivals IH]; intros loaded w.
  - exists w. cbn. rewrite Nat.add_0_r, !app_nil_r.
    repeat split; try reflexivity. lia.
  - cbn [onloads].
    rewrite (bind_ok _ _ _ _ _ (readerOnload_run total e loaded w)).
    match goal with
    | |- context [onloads total arrivals (S loaded) ?w1] =>
        destruct (IH (S loaded) w1)
          as (w' & Hrun & Him & Hil & Hlo & Hsa & Htx & Hen & Hsame)
    end.
    exists w'. cbn [images imageList loads saved generateBtn length] in *.
    split; [rewrite Hrun; f_equal; f_equal; lia|].
    split; [now rewrite Him, <- app_assoc|].
    split.
    { rewrite Hil, <- app_assoc. f_equal. cbn [imap app]. f_equal.
      - now rewrite Nat.add_0_r.
      - apply imap_ext. intros k x _. cbn. rewrite length_app. cbn.
        f_equal. lia. }
    split; [exact Hlo|]. split; [exact Hsa|].
    destruct (Nat.eqb_spec (S loaded) total) as [Het|Hne].
    + split; [now rewrite Htx|]. split; [|intros Hn; lia].
      intros _. destruct (Nat.le_gt_cases total (S loaded)).
      * rewrite Hsame by lia. reflexivity.
      * apply Hen. lia.
    + split; [exact Htx|]. split.
      * intros Hin. apply Hen. lia.
      * intros Hn. apply Hsame. lia.
Qed.

(** X3: [addFiles] and the [load] events that follow it append the loaded
    entries to [images] in the order in which the readers complete, and
    keep the item list showing [images].  The button is touched only by
    the callback that brings the counter to the number of files of an
    allowed type in the batch: it is enabled once as many entries have
    arrived, and until then (a reader pending or failed) it stays as it
    was.  Nothing is loaded as an image or saved, and no callback
    throws. *)
Theorem addFiles_appends_in_arrival_order
    (fileList : list PickedFile) (arrivals : list ImageEntry) (w : World T) :
  exists w',
    addFiles fileList arrivals w = (Ok (length arrivals), w')
    /\ images w' = images w ++ arrivals
    /\ (rendered w -> rendered w')
    /\ loads w' = loads w /\ saved w' = saved w
    /\ textContent (generateBtn w') = textContent (generateBtn w)
    /\ (0 < length (imageFilesOf fileList) <= length arrivals ->
        disabled (generateBtn w') = false)
    /\ (length arrivals < length (imageFilesOf fileList) ->
        generateBtn w' = generateBtn w).
Proof.
  destruct (onloads_run (length (imageFilesOf fileList)) arrivals 0 w)
    as (w' & Hrun & Him & Hil & Hlo & Hsa & Htx & Hen & Hsame).
  exists w'. split; [exact Hrun|]. split; [exact Him|].
  split.
  { unfold rendered. intros Hr. rewrite Hil, Him, Hr, imap_app. f_equal. }
  split; [exact Hlo|]. split; [exact Hsa|]. split; [exact Htx|].
  split; [intros Hn; apply Hen; lia|intros Hn; apply Hsame; lia].
Qed.
End Adding.

(** ** Reordering by drag and drop *)

Section Reordering.
Context {T : Type}.

Lemma moveItem_spec {A} (old new : nat) (a : list A) (moved : A) :
  a !! old = Some moved ->
  exists a',
    moveItem old new a = Some a'
    /\ length a' = length a
    /\ a' !! (new `min` (length a - 1)) = Some moved
    /\ delete (new `min` (length a - 1)) a' = delete old a
    /\ a' ≡ₚ a.
Proof.
  intros Ho. unfold moveItem. rewrite Ho. eexists. split; [reflexivity|].
  pose proof (lookup_lt_Some _ _ _ Ho) as Hlt.
  assert (Hlen : length (take new (delete old a)) = new `min` (length a - 1)).
  { rewrite length_take, length_delete by eauto. lia. }
  split.
  { rewrite length_app. cbn. rewrite Hlen, length_drop, length_delete by eauto. lia. }
  split.
  { rewrite <- Hlen. now rewrite list_lookup_middle. }
  split.
  { rewrite <- Hlen, delete_middle. apply take_drop. }
  etransitivity; [|symmetry; apply (delete_Permutation a old moved Ho)].
  rewrite <- Permutation_middle. constructor. now rewrite take_drop.
Qed.

(** X4: the [onEnd] handler does nothing when Sortable gives no old or
    no new index.  Otherwise it moves the entry at the old index to the
    new index (the last position when the new index is past the end),
    keeps the other entries in their relative order, so that [images] is
    a permutation of what it was, and renumbers the badges; the button,
    the loads and the saved documents are untouched. *)
Theorem onEnd_moves_one_entry (w : World T) :
  (forall evt, oldIndex evt = None \/ newIndex evt = None ->
     onEnd evt w = Some (Ok tt, w))
  /\ (forall old new moved,
        images w !! old = Some moved ->
        exists w',
          onEnd {| oldIndex := Some old; newIndex := Some new |} w
          = Some (Ok tt, w')
          /\ images w' !! (new `min` (length (images w) - 1)) = Some moved
          /\ delete (new `min` (length (images w) - 1)) (images w')
             = delete old (images w)
          /\ images w' ≡ₚ images w
          /\ imageList w' = renumber (imageList w)
          /\ generateBtn w' = generateBtn w
          /\ loads w' = loads w /\ saved w' = saved w).
Proof.
  split.
  - intros [[old|] [new|]] [Ho|Hn]; cbn in *; try discriminate; reflexivity.
  - intros old new moved Ho.
    destruct (moveItem_spec old new (images w) moved Ho)
      as (a' & Hm & _ & Hat & Hdel & Hperm).
    unfold onEnd. cbn [oldIndex newIndex]. rewrite Hm.
    eexists. split; [reflexivity|]. cbn. auto 10.
Qed.

(** X5: a drag keeps the page consistent.  When the item list showed
    [images] before Sortable moved the dragged item from the old to the
    new index, [onEnd] applies the same move to [images], after which
    the item list shows [images] again, badges included. *)
Theorem drag_keeps_the_item_list_in_step (w0 w1 : World T) (old new : nat) :
  rendered w0 -> dragged old new w0 = Some w1 ->
  exists w2 a,
    onEnd {| oldIndex := Some old; newIndex := Some new |} w1 = Some (Ok tt, w2)
    /\ moveItem old new (images w0) = Some a
    /\ images w2 = a
    /\ rendered w2
    /\ generateBtn w2 = generateBtn w0.
Proof.
  intros Hr Hd. unfold dragged in Hd.
  destruct (moveItem old new (imageList w0)) as [items|] eqn:Hm; [|discriminate].
  injection Hd as <-.
  destruct (moveItem_shows old new (imageList w0) (images w0) items) as (a & Ha & Hs);
    [rewrite Hr; apply shows_rendered|exact Hm|].
  unfold onEnd. cbn [oldIndex newIndex images]. rewrite Ha.
  eexists _, a. split; [reflexivity|]. split; [reflexivity|].
  cbn. split; [reflexivity|]. split; [|reflexivity].
  unfold rendered. cbn. now apply renumber_shows.
Qed.
End Reordering.

(** ** More on generation *)

Section Generating.
Context {T : Type} `{JsNumber T}.
Variable decode : string -> option HTMLImageElement.
Variable sheet : Sheet T.

Lemma pages_inj (d1 d2 : jsPDF T) : pages d1 = pages d2 -> d1 = d2.
Proof.
  destruct d1 as [p1 c1], d2 as [p2 c2]. unfold pages. cbn. intros E.
  apply app_inj_tail in E as [-> ->]. reflexivity.
Qed.

(** Every page is a function of its own entry. *)
Lemma generatePDF_pages_map :
  exists f : ImageEntry -> Page T,
    forall w : World T,
      images w <> [] ->
      Forall (fun e => is_Some (decode (dataUrl e))) (images w) ->
      exists doc w',
        generatePDF decode sheet w = (Ok tt, w')
        /\ saved w' = saved w ++ [("images.pdf", doc)]
        /\ pages doc = f <$> images w.
Proof.
  exists (fun e => pageFor sheet e
            (default {| width := 0; height := 0 |} (decode (dataUrl e)))).
  intros w Hne Hall.
  destruct (generatePDF_saves decode sheet (fun d => ret d) w Hne Hall)
    as (doc & w' & Hrun & Hs & Hlen & Hp).
  exists doc, w'. split; [exact Hrun|]. split; [exact Hs|].
  apply list_eq. intros i. rewrite list_lookup_fmap.
  destruct (images w !! i) as [e|] eqn:Hi.
  - assert (Hd : is_Some (decode (dataUrl e))).
    { rewrite Forall_forall in Hall. eapply Hall, list_elem_of_lookup_2, Hi. }
    destruct Hd as [img Hd]. rewrite (Hp i e img Hi Hd). cbn. now rewrite Hd.
  - cbn. apply lookup_ge_None. rewrite Hlen. now apply lookup_ge_None.
Qed.

(** The outcome and the effects of [generatePDF] are the same in all
    worlds that have the same [images]. *)
Lemma generatePDF_uniform (l : list ImageEntry) :
  exists r srcs out,
    forall v : World T,
      images v = l ->
      generatePDF decode sheet v
      = (r, {| images := images v; imageList := imageList v;
               generateBtn := generateBtn v;
               loads := loads v ++ srcs; saved := saved v ++ out |}).
Proof.
  destruct l as [|e rest].
  - exists (Throw TypeError), [], []. intros v Hv.
    unfold generatePDF, generatePDF_with.
    rewrite (bind_ok get _ v v v eq_refl), Hv. cbn. unfold throw.
    rewrite !app_nil_r. destruct v; cbn in *; now subst.
  - destruct (Forall_Exists_dec (fun e => is_Some (decode (dataUrl e)))
                (fun e => decode (dataUrl e) = None)) with (l := e :: rest)
      as [HF|HE].
    { intros x. destruct (decode (dataUrl x)); [left; eauto|right; reflexivity]. }
    + destruct (all_decode decode _ HF) as (imgs & HF2).
      set (w0 := {| images := e :: rest; imageList := []; generateBtn :=
                      {| disabled := false; textContent := "" |};
                    loads := []; saved := [] |} : World T).
      destruct (generatePDF_with_ok decode sheet (fun d => ret d) w0 e rest imgs
                  eq_refl HF2) as (doc & _ & Hp).
      exists (Ok tt), (dataUrl e :: map dataUrl (e :: rest)), [("images.pdf", doc)].
      intros v Hv. rewrite <- Hv in HF2.
      destruct (generatePDF_with_ok decode sheet (fun d => ret d) v e rest imgs
                  Hv HF2) as (doc' & Hrun & Hp').
      unfold generatePDF. rewrite Hrun.
      assert (doc' = doc) as ->.
      { apply pages_inj. rewrite Hp, Hp', Hv. reflexivity. }
      unfold withSaved, withLoads. cbn. now rewrite Hv.
    + destruct (generatePDF_with_fail decode sheet (fun d => ret d) _ HE)
        as (src & srcs & _ & Hrun).
      exists (Throw (LoadError src)), srcs, []. intros v Hv.
      unfold generatePDF. rewrite (Hrun v Hv). unfold withLoads.
      now rewrite app_nil_r.
Qed.


Lemma forImages_next_stops block l0 l1 e l2 :
  Forall (fun x => is_Some (decode (dataUrl x))) l1 ->
  decode (dataUrl e) = None ->
  forall doc i (w : World T),
    forImages decode sheet block l0 doc (S i) (l1 ++ e :: l2) w
    = (Throw (LoadError (dataUrl e)),
       withLoads w (map dataUrl l1 ++ [dataUrl e])).
Proof.
  intros Hl1 He. induction Hl1 as [|x l1 [img Hx] _ IH]; intros doc i w.
  - cbn [app forImages map].
    now rewrite (bind_throw _ _ _ _ _ (iteration_fail decode sheet block l0 (S i) e doc w He)).
  - cbn [app forImages map].
    rewrite (bind_ok _ _ _ _ _ (iteration_next decode sheet block l0 i x img doc w Hx)).
    now rewrite IH, withLoads_app.
Qed.



End Generating.

(** ** Editing the list, then generating *)

Section Editing.
Context {T : Type} `{JsNumber T}.
Variable decode : string -> option HTMLImageElement.
Variable sheet : Sheet T.

Lemma moveItem_fmap {A B} (f : A -> B) (old new : nat) (a : list A) :
  moveItem old new (f <$> a) = fmap (M := option) (fmap (M := list) f) (moveItem old new a).
Proof.
  unfold moveItem. rewrite list_lookup_fmap.
  destruct (a !! old) as [x|]; [|reflexivity]. cbn.
  now rewrite fmap_app, fmap_cons, fmap_take, fmap_drop, list_fmap_delete.
Qed.


End Editing.

(** ** More on the fitted box, in exact arithmetic *)

Section FitMore.
Local Open Scope Q_scope.

Lemma num_of_N_pos (n : N) : (0 < n)%N -> 0 < num_of_N (T := Q) n.
Proof. intros Hn. cbn. change 0 with (inject_Z 0). rewrite <- Zlt_Qlt. lia. Qed.

Lemma div_lt_cross (a b c d : Q) :
  0 < b -> 0 < d -> (a / b < c / d <-> a * d < c * b).
Proof.
  intros Hb Hd. split; intros Hlt.
  - assert (E1 : a == a / b * b) by (field; lra).
    assert (E2 : c == c / d * d) by (field; lra).
    set (x := a / b) in *. set (y := c / d) in *. clearbody x y.
    assert (0 < (y - x) * (b * d)).
    { apply Qmult_lt_0_compat; [lra|]. apply Qmult_lt_0_compat; lra. }
    nra.
  - apply Qlt_shift_div_l; [lra|].
    assert (E : a / b * d == a * d / b) by (field; lra). rewrite E.
    apply Qlt_shift_div_r; lra.
Qed.

Lemma num_gt_morph (x x' y y' : Q) :
  x == x' -> y == y' -> num_gt x y = num_gt x' y'.
Proof.
  intros Hx Hy. destruct (num_gt x' y') eqn:E.
  - apply num_gt_true in E. apply num_gt_true. now rewrite Hx, Hy.
  - apply num_gt_false in E. apply num_gt_false. now rewrite Hx, Hy.
Qed.

(** The box lies inside the page. *)
Lemma fit_inside (imgW imgH : N) (pageW pageH : Q) :
  (0 < imgW)%N -> (0 < imgH)%N -> 0 < pageW -> 0 < pageH ->
  let '(x, y, w, h) := fit imgW imgH pageW pageH in
  0 <= x /\ 0 <= y /\ x + w <= pageW /\ y + h <= pageH.
Proof.
  intros Hw Hh HpW HpH.
  pose proof (imgRatio_pos imgW imgH Hw Hh) as Hr.
  pose proof (div_mul_cancel pageW pageH HpH) as Hpr.
  unfold fit. set (r := imgRatioOf imgW imgH) in *. clearbody r.
  destruct (num_gt r (num_div pageW pageH)) eqn:Hgt.
  - apply num_gt_true in Hgt. cbn in Hgt.
    pose proof (div_mul_cancel pageW r Hr) as Hh'.
    unfold fitToWidth. cbn.
    set (h := pageW / r) in *. set (pr := pageW / pageH) in *. clearbody h pr.
    assert (Hle : h <= pageH).
    { apply Qnot_lt_le. intros Hlt.
      assert (0 < (h - pageH) * r) by (apply Qmult_lt_0_compat; lra).
      assert (0 < (r - pr) * pageH) by (apply Qmult_lt_0_compat; lra).
      nra. }
    change (inject_Z 0) with 0. change (inject_Z 2) with 2.
    unfold Qdiv. change (/ 2) with (1 # 2). repeat split; lra.
  - apply num_gt_false in Hgt. cbn in Hgt.
    unfold fitToHeight. cbn.
    set (pr := pageW / pageH) in *. clearbody pr.
    assert (Hle : pageH * r <= pageW).
    { assert (0 <= (pr - r) * pageH) by (apply Qmult_le_0_compat; lra).
      nra. }
    change (inject_Z 0) with 0. change (inject_Z 2) with 2.
    unfold Qdiv. change (/ 2) with (1 # 2). repeat split; lra.
Qed.

(** X12: the box "fills the page while maintaining the aspect ratio", as
    the comment of line 182 says.  For positive sizes, the box has a
    positive width and height and is not larger than the page in either
    direction; the drawn width and height are in the proportion of the
    image's pixel width and height; the box spans the page in width or
    in height; and it is the largest box of that proportion that the
    page can hold. *)
Theorem fitted_box_is_the_largest_of_its_ratio
    (imgW imgH : N) (pageW pageH : Q) :
  (0 < imgW)%N -> (0 < imgH)%N -> 0 < pageW -> 0 < pageH ->
  let '(x, y, w, h) := fit imgW imgH pageW pageH in
  0 < w /\ w <= pageW /\ 0 < h /\ h <= pageH
  /\ w * num_of_N imgH == h * num_of_N imgW
  /\ (w = pageW \/ h = pageH)
  /\ (forall w' h', w' <= pageW -> h' <= pageH ->
        w' * num_of_N imgH == h' * num_of_N imgW -> w' <= w /\ h' <= h).
Proof.
  intros Hw Hh HpW HpH.
  pose proof (num_of_N_pos imgW Hw) as Ha.
  pose proof (num_of_N_pos imgH Hh) as Hb.
  pose proof (fit_inside imgW imgH pageW pageH Hw Hh HpW HpH) as Hin.
  revert Hin. unfold fit, imgRatioOf.
  set (a := num_of_N imgW) in *. set (b := num_of_N imgH) in *. clearbody a b.
  destruct (num_gt (num_div a b) (num_div pageW pageH)).
  - unfold fitToWidth. cbn. intros (Hx & Hy & Hxw & Hyh).
    assert (E : pageW / (a / b) * a == pageW * b) by (field; split; lra).
    set (h := pageW / (a / b)) in *. clearbody h.
    assert (Hpos : 0 < h).
    { apply Qnot_le_lt. intros Hle.
      assert (0 <= (0 - h) * a) by (apply Qmult_le_0_compat; lra).
      assert (0 < pageW * b) by (apply Qmult_lt_0_compat; lra).
      lra. }
    split; [exact HpW|]. split; [apply Qle_refl|]. split; [exact Hpos|].
    split; [lra|]. split; [now rewrite E|]. split; [now left|].
    intros w' h' Hw' Hh' Hr. split; [exact Hw'|].
    apply (Qmult_le_r _ _ a Ha).
    assert (0 <= (pageW - w') * b) by (apply Qmult_le_0_compat; lra).
    nra.
  - unfold fitToHeight. cbn. intros (Hx & Hy & Hxw & Hyh).
    assert (E : pageH * (a / b) * b == pageH * a) by (field; lra).
    set (w := pageH * (a / b)) in *. clearbody w.
    assert (Hpos : 0 < w).
    { apply Qnot_le_lt. intros Hle.
      assert (0 <= (0 - w) * b) by (apply Qmult_le_0_compat; lra).
      assert (0 < pageH * a) by (apply Qmult_lt_0_compat; lra).
      lra. }
    split; [exact Hpos|]. split; [lra|]. split; [exact HpH|].
    split; [apply Qle_refl|]. split; [exact E|]. split; [now right|].
    intros w' h' Hw' Hh' Hr. split; [|exact Hh'].
    apply (Qmult_le_r _ _ b Hb).
    assert (0 <= (pageH - h') * a) by (apply Qmult_le_0_compat; lra).
    nra.
Qed.

(** X13: the layout depends on the proportions of the image and not on
    its resolution: an image of [k] times the pixel width and height gets
    the same box on the same page. *)
Theorem layout_ignores_the_resolution (k imgW imgH : N) (pageW pageH : Q) :
  (0 < k)%N -> (0 < imgW)%N -> (0 < imgH)%N ->
  let '(x, y, w, h) := fit imgW imgH pageW pageH in
  let '(x', y', w', h') := fit (k * imgW) (k * imgH) pageW pageH in
  x' == x /\ y' == y /\ w' == w /\ h' == h.
Proof.
  intros Hk Hw Hh.
  pose proof (num_of_N_pos imgW Hw) as Ha.
  pose proof (num_of_N_pos imgH Hh) as Hb.
  pose proof (num_of_N_pos k Hk) as Hc.
  assert (Er : imgRatioOf (T := Q) (k * imgW) (k * imgH) == imgRatioOf imgW imgH).
  { unfold imgRatioOf. cbn. rewrite !N2Z.inj_mul, !inject_Z_mult.
    cbn in Ha, Hb, Hc. field. split; lra. }
  unfold fit. rewrite (num_gt_morph _ _ _ _ Er (Qeq_refl _)).
  set (r' := imgRatioOf (k * imgW) (k * imgH)) in *.
  set (r := imgRatioOf imgW imgH) in *. clearbody r r'.
  destruct (num_gt r (num_div pageW pageH)); unfold fitToWidth, fitToHeight; cbn;
    repeat split; try reflexivity; rewrite Er; reflexivity.
Qed.

Lemma fit_transposed (imgW imgH : N) (pageW pageH : Q) :
  (0 < imgW)%N -> (0 < imgH)%N -> 0 < pageW -> 0 < pageH ->
  let '(x, y, w, h) := fit imgW imgH pageW pageH in
  let '(x', y', w', h') := fit imgH imgW pageH pageW in
  x' == y /\ y' == x /\ w' == h /\ h' == w.
Proof.
  intros Hw Hh HpW HpH.
  pose proof (num_of_N_pos imgW Hw) as Ha.
  pose proof (num_of_N_pos imgH Hh) as Hb.
  unfold fit, imgRatioOf.
  set (a := num_of_N imgW) in *. set (b := num_of_N imgH) in *. clearbody a b.
  destruct (num_gt (num_div a b) (num_div pageW pageH)) eqn:Hgt;
    destruct (num_gt (num_div b a) (num_div pageH pageW)) eqn:Hgt'.
  - apply num_gt_true in Hgt, Hgt'. cbn in Hgt, Hgt'.
    apply (proj1 (div_lt_cross _ _ _ _ HpH Hb)) in Hgt.
    apply (proj1 (div_lt_cross _ _ _ _ HpW Ha)) in Hgt'. lra.
  - unfold fitToWidth, fitToHeight. cbn.
    repeat split; try reflexivity; field; repeat split; lra.
  - unfold fitToWidth, fitToHeight. cbn.
    repeat split; try reflexivity; field; repeat split; lra.
  - apply num_gt_false in Hgt, Hgt'. cbn in Hgt, Hgt'.
    assert (E : a * pageH == pageW * b).
    { apply Qle_antisym.
      - apply Qnot_lt_le. intros Hlt.
        apply (proj2 (div_lt_cross _ _ _ _ HpH Hb)) in Hlt. lra.
      - apply Qnot_lt_le. intros Hlt.
        assert (Hlt' : pageH * a < b * pageW) by lra.
        apply (proj2 (div_lt_cross _ _ _ _ HpW Ha)) in Hlt'. lra. }
    assert (E1 : pageH * (a / b) == pageW).
    { apply (Qmult_inj_r _ _ b); [lra|].
      transitivity (pageH * a); [field; lra|lra]. }
    assert (E2 : pageW * (b / a) == pageH).
    { apply (Qmult_inj_r _ _ a); [lra|].
      transitivity (pageW * b); [field; lra|lra]. }
    unfold fitToHeight. cbn.
    set (u := pageH * (a / b)) in *. set (v := pageW * (b / a)) in *.
    clearbody u v. change (inject_Z 0) with 0. change (inject_Z 2) with 2.
    unfold Qdiv. change (/ 2) with (1 # 2).
    repeat split; lra.
Qed.

(** X14: turning an image by a quarter turn turns its page layout with
    it.  For an image that is not square, the image with width and
    height exchanged gets the page of the other orientation, whose width
    and height are exchanged, and on it the box with [x] and [y], and
    width and height, exchanged. *)
Theorem rotated_image_gets_the_rotated_layout
    (img : HTMLImageElement) (sheet : Sheet Q) :
  0 < short sheet -> 0 < long sheet ->
  (0 < width img)%N -> (0 < height img)%N -> width img <> height img ->
  let img' := {| width := height img; height := width img |} in
  let o := orientationOf (isLandscape img) in
  let o' := orientationOf (isLandscape img') in
  o' <> o
  /\ pageWidth sheet o' = pageHeight sheet o
  /\ pageHeight sheet o' = pageWidth sheet o
  /\ (let '(x, y, w, h) :=
        fit (width img) (height img) (pageWidth sheet o) (pageHeight sheet o) in
      let '(x', y', w', h') :=
        fit (width img') (height img') (pageWidth sheet o') (pageHeight sheet o') in
      x' == y /\ y' == x /\ w' == h /\ h' == w).
Proof.
  intros Hs Hl Hw Hh Hne img' o o'.
  assert (Ho : (o = Landscape /\ o' = Portrait) \/ (o = Portrait /\ o' = Landscape)).
  { unfold o, o', orientationOf, isLandscape, img'. cbn.
    destruct (N.ltb_spec (height img) (width img));
      destruct (N.ltb_spec (width img) (height img)); auto; lia. }
  destruct Ho as [[-> ->]|[-> ->]]; cbn [pageWidth pageHeight img' width height];
    (split; [discriminate|]); (split; [reflexivity|]); (split; [reflexivity|]);
    now apply fit_transposed.
Qed.
End FitMore.

(** ** The order badges *)

Section Badges.
Context {T : Type}.

Lemma String_of_nat_inj (n m : nat) : String_of_nat n = String_of_nat m -> n = m.
Proof.
  unfold String_of_nat. intros E.
  apply DecimalNat.Unsigned.to_uint_inj.
  apply (f_equal NilEmpty.uint_of_string) in E.
  rewrite !NilEmpty.usu in E. congruence.
Qed.

(** X15: [updateOrderBadges] writes on every item the number of its
    position, counted from 1, whatever the badges said before.  The
    badges are then pairwise distinct; the items are otherwise
    unchanged, as is the rest of the world; and a second call changes
    nothing. *)
Theorem updateOrderBadges_numbers_the_items (w : World T) :
  exists w',
    updateOrderBadges w = (Ok tt, w')
    /\ images w' = images w /\ generateBtn w' = generateBtn w
    /\ loads w' = loads w /\ saved w' = saved w
    /\ length (imageList w') = length (imageList w)
    /\ (forall k item,
          imageList w !! k = Some item ->
          exists item',
            imageList w' !! k = Some item'
            /\ badge item' = String_of_nat (k + 1)
            /\ dataId item' = dataId item /\ imgSrc item' = imgSrc item
            /\ fileName item' = fileName item)
    /\ NoDup (map badge (imageList w'))
    /\ updateOrderBadges w' = (Ok tt, w').
Proof.
  eexists. split; [reflexivity|]. cbn.
  repeat split.
  - apply length_imap.
  - intros k item Hk. eexists.
    split; [unfold renumber; rewrite list_lookup_imap, Hk; reflexivity|].
    cbn. repeat split.
  - unfold renumber. change map with (@fmap list _). rewrite fmap_imap.
    replace (imap _ (imageList w)) with (String_of_nat <$> seq 1 (length (imageList w))).
    + apply NoDup_fmap_2; [|apply NoDup_seq].
      intros n m. apply String_of_nat_inj.
    + rewrite <- (imap_seq (imageList w) String_of_nat 1).
      apply imap_ext. intros i x _. unfold compose. cbn [badge].
      now rewrite Nat.add_1_r.
  - unfold updateOrderBadges, modify. cbn. do 2 f_equal.
    apply list_eq. intros k. unfold renumber.
    rewrite !list_lookup_imap. now destruct (imageList w !! k).
Qed.
End Badges.

(** ** Adding or removing, then generating *)

Section EditingMore.
Context {T : Type} `{JsNumber T}.
Variable decode : string -> option HTMLImageElement.
Variable sheet : Sheet T.

(** X16: removing the only image leaves nothing to generate: [images] is
    empty, the button is disabled, and a click on it would do nothing. *)
Theorem removing_the_only_image_disables_generation (w : World T) (e : ImageEntry) :
  images w = [e] ->
  exists w1,
    removeImage (id e) w = (Ok tt, w1)
    /\ images w1 = [] /\ disabled (generateBtn w1) = true
    /\ saved w1 = saved w
    /\ onGenerateClick decode sheet w1 = (Ok tt, w1).
Proof.
  intros Hi.
  rewrite (removeImage_run w (id e) [] e [] Hi eq_refl)
    by (intros x Hx; inversion Hx).
  eexists. split; [reflexivity|]. cbn. repeat split.
Qed.

End EditingMore.

(** ** The sample session, once more *)

Lemma goodWorld_rendered : rendered goodWorld.
Proof. reflexivity. Qed.

Lemma goodWorld_button : buttonFollows goodWorld.
Proof. reflexivity. Qed.

Lemma goodWorld_split : images goodWorld = [wideEntry] ++ tallEntry :: [squareEntry].
Proof. reflexivity. Qed.

Lemma wideEntry_other_id (x : ImageEntry) : x ∈ [wideEntry] -> id x <> "id-2".
Proof. intros Hx. apply list_elem_of_singleton in Hx. now subst. Qed.

Lemma removeImage_removes_first_witness :
  fst (removeImage "id-2" goodWorld) = Ok tt
  /\ images (snd (removeImage "id-2" goodWorld)) = [wideEntry; squareEntry].
Proof.
  destruct (removeImage_removes_first goodWorld "id-2" [wideEntry] tallEntry
              [squareEntry] goodWorld_split eq_refl wideEntry_other_id)
    as [Hrun _].
  rewrite Hrun. split; reflexivity.
Defined.

Lemma removeImage_keeps_the_page_consistent_witness :
  rendered (snd (removeImage "id-2" goodWorld)).
Proof.
  exact (proj1 (proj2 (removeImage_keeps_the_page_consistent goodWorld "id-2"
                         goodWorld_rendered goodWorld_button))).
Defined.

Lemma drag_keeps_the_item_list_in_step_witness :
  exists w1 w2 : World Q,
    dragged 0 2 goodWorld = Some w1
    /\ onEnd {| oldIndex := Some 0%nat; newIndex := Some 2%nat |} w1
       = Some (Ok tt, w2)
    /\ images w2 = [tallEntry; squareEntry; wideEntry]
    /\ rendered w2.
Proof.
  destruct (dragged 0 2 goodWorld) as [w1|] eqn:Hd; [|discriminate].
  destruct (drag_keeps_the_item_list_in_step goodWorld w1 0 2
              goodWorld_rendered Hd) as (w2 & a & Hend & Hm & Hi & Hr & _).
  exists w1, w2. split; [reflexivity|]. split; [exact Hend|].
  split; [|exact Hr]. rewrite Hi. injection Hm as <-. reflexivity.
Defined.


Lemma badWorld_split : images badWorld = [wideEntry] ++ brokenEntry :: [tallEntry].
Proof. reflexivity. Qed.

Lemma wideEntry_loads :
  Forall (fun x => is_Some (sampleDecode (dataUrl x))) [wideEntry].
Proof. constructor; [eexists; reflexivity|constructor]. Qed.


Lemma goodWorld_generates :
  generatePDF sampleDecode a4 goodWorld
  = (Ok tt, snd (generatePDF sampleDecode a4 goodWorld)).
Proof. reflexivity. Qed.


Lemma goodWorld_dragged :
  onEnd {| oldIndex := Some 0%nat; newIndex := Some 2%nat |} goodWorld
  = Some (Ok tt,
          snd (updateOrderBadges
                 {| images := [tallEntry; squareEntry; wideEntry];
                    imageList := imageList goodWorld;
                    generateBtn := generateBtn goodWorld;
                    loads := loads goodWorld; saved := saved goodWorld |})).
Proof. reflexivity. Qed.



Lemma fitted_box_is_the_largest_of_its_ratio_witness :
  let '(x, y, w, h) := fit 800 600 (84189 # 100) (59528 # 100) in
  (0 < w /\ w <= 84189 # 100 /\ 0 < h /\ h <= 59528 # 100
   /\ w * num_of_N 600 == h * num_of_N 800)%Q.
Proof.
  pose proof (fitted_box_is_the_largest_of_its_ratio 800 600 (84189 # 100)
                (59528 # 100) eq_refl eq_refl eq_refl eq_refl) as Hfit.
  destruct (fit 800 600 (84189 # 100) (59528 # 100)) as [[[x y] w] h].
  destruct Hfit as (H1 & H2 & H3 & H4 & H5 & _).
  split; [exact H1|]. split; [exact H2|]. split; [exact H3|].
  split; [exact H4|exact H5].
Defined.

Lemma layout_ignores_the_resolution_witness :
  let '(x, y, w, h) := fit 800 600 (84189 # 100) (59528 # 100) in
  let '(x', y', w', h') := fit (2 * 800) (2 * 600) (84189 # 100) (59528 # 100) in
  (x' == x /\ y' == y /\ w' == w /\ h' == h)%Q.
Proof.
  exact (layout_ignores_the_resolution 2 800 600 (84189 # 100) (59528 # 100)
           eq_refl eq_refl eq_refl).
Defined.

Lemma rotated_image_gets_the_rotated_layout_witness :
  orientationOf (isLandscape {| width := 600; height := 800 |})
  <> orientationOf (isLandscape {| width := 800; height := 600 |}).
Proof.
  destruct (rotated_image_gets_the_rotated_layout
              {| width := 800; height := 600 |} a4)
    as (Ho & _); [reflexivity..|discriminate|exact Ho].
Defined.

Lemma removing_the_only_image_disables_generation_witness :
  exists w1 : World Q,
    removeImage "id-1" (worldWith [wideEntry]) = (Ok tt, w1)
    /\ disabled (generateBtn w1) = true.
Proof.
  destruct (removing_the_only_image_disables_generation sampleDecode a4
              (worldWith [wideEntry]) wideEntry eq_refl)
    as (w1 & Hrun & _ & Hdis & _).
  exists w1. split; [exact Hrun|exact Hdis].
Defined.


(** ** The saved document, in exact arithmetic *)

Section Document.
Local Open Scope Q_scope.
Variable decode : string -> option HTMLImageElement.
Variable sheet : Sheet Q.

End Document.

Lemma goodWorld_positive :
  Forall (fun e => exists img, sampleDecode (dataUrl e) = Some img
                               /\ (0 < width img)%N /\ (0 < height img)%N)
         (images goodWorld).
Proof.
  rewrite goodWorld_images.
  repeat (constructor; [eexists; repeat split; reflexivity|]). constructor.
Qed.


(** ** Generation while handlers run *)

Section LiveRuns.
Context {T : Type} `{JsNumber T}.
Variable decode : string -> option HTMLImageElement.
Variable sheet : Sheet T.

Lemma awaitLoad_quiet (src : string) :
  awaitLoad (T := T) decode src [] = loadImage decode src.
Proof. reflexivity. Qed.

(** When no handler runs, the loop that reads [images] at every step is
    the loop over the entries that [images] holds at its start. *)
Lemma forImagesLive_quiet (l0 : bool) (schedule : list (list (Handler T))) :
  quiet schedule ->
  forall (doc : jsPDF T) (i : nat) (w : World T),
    forImagesLive decode sheet l0 doc i schedule w
    = forImages decode sheet (fun d => ret d) l0 doc i (drop i (images w)) w.
Proof.
  induction 1 as [|handlers schedule -> _ IH]; intros doc i w; [reflexivity|].
  cbn [forImagesLive]. rewrite (bind_ok get _ w w w eq_refl).
  destruct (images w !! i) as [entry|] eqn:Hi.
  - rewrite (drop_S _ _ _ Hi). cbn [forImages]. unfold iteration.
    rewrite awaitLoad_quiet. unfold bind, get, ret.
    destruct (decode (dataUrl entry)) as [img|] eqn:Hd.
    + rewrite (loadImage_ok decode _ _ w Hd). cbn [images withLoads]. rewrite Hi.
      destruct (0 <? i)%nat;
        [exact (IH _ (S i) (withLoads w [dataUrl entry]))|].
      destruct (negb (eqb l0 (isLandscape img)));
        exact (IH _ (S i) (withLoads w [dataUrl entry])).
    + now rewrite (loadImage_fail decode _ w Hd).
  - apply lookup_ge_None in Hi. now rewrite drop_ge.
Qed.

(** [generatePDF] is [generatePDFLive] when no handler runs. *)
Lemma generatePDFLive_quiet (schedule : list (list (Handler T))) (w : World T) :
  quiet schedule ->
  generatePDFLive decode sheet schedule w = generatePDF decode sheet w.
Proof.
  intros Hq. unfold generatePDFLive, generatePDF, generatePDF_with.
  rewrite !(bind_ok get _ w w w eq_refl).
  destruct (images w !! 0%nat) as [first|]; [|reflexivity].
  assert (Hhd : hd [] schedule = []) by (destruct Hq; [reflexivity|assumption]).
  assert (Htl : quiet (tl schedule)) by (destruct Hq; [constructor|assumption]).
  rewrite Hhd, awaitLoad_quiet.
  destruct (decode (dataUrl first)) as [firstImg|] eqn:Hd.
  - rewrite !(bind_ok _ _ _ _ _ (loadImage_ok decode _ _ w Hd)). cbv zeta.
    apply bind_ext; [|reflexivity].
    rewrite (forImagesLive_quiet _ _ Htl). cbn [images withLoads].
    now rewrite drop_0.
  - now rewrite !(bind_throw _ _ _ _ _ (loadImage_fail decode _ w Hd)).
Qed.

Lemma iteration_ret_no_branch l0 i e doc (w : World T) :
  iteration decode sheet (fun d => ret d) l0 i e doc w
  = iteration_no_branch decode sheet i e doc w.
Proof.
  unfold iteration, iteration_no_branch, bind.
  destruct (loadImage _ _ _) as [[img|err] w']; [|reflexivity].
  destruct (0 <? i)%nat; [reflexivity|].
  now destruct (negb (eqb l0 (isLandscape img))).
Qed.

Lemma forImages_ret_no_branch l0 rest : forall doc i (w : World T),
  forImages decode sheet (fun d => ret d) l0 doc i rest w
  = forImages_no_branch decode sheet doc i rest w.
Proof.
  induction rest as [|e rest IH]; intros doc i w; [reflexivity|].
  cbn [forImages forImages_no_branch].
  apply bind_ext; [apply iteration_ret_no_branch|]. intros doc' w'. apply IH.
Qed.

(** The block of the branch is empty: with or without the branch the
    loop is the same, whatever runs during its [await]s. *)
Lemma forImagesLive_no_branch_eq l0 (schedule : list (list (Handler T))) :
  forall (doc : jsPDF T) (i : nat) (w : World T),
    forImagesLive decode sheet l0 doc i schedule w
    = forImagesLive_no_branch decode sheet doc i schedule w.
Proof.
  induction schedule as [|handlers schedule IH]; intros doc i w.
  - cbn [forImagesLive forImagesLive_no_branch].
    apply bind_ext; [reflexivity|]. intros w0 w'. apply forImages_ret_no_branch.
  - cbn [forImagesLive forImagesLive_no_branch].
    apply bind_ext; [reflexivity|]. intros w0 w'.
    destruct (images w0 !! i) as [entry|]; [|reflexivity].
    apply bind_ext; [reflexivity|]. intros img w''. cbv zeta.
    apply bind_ext; [reflexivity|]. intros w1 w1'.
    destruct (images w1 !! i) as [entry'|]; [|reflexivity].
    destruct (0 <? i)%nat; [apply IH|].
    destruct (negb (eqb l0 (isLandscape img))); apply IH.
Qed.

Lemma generatePDFLive_no_branch_eq (schedule : list (list (Handler T)))
    (w : World T) :
  generatePDFLive decode sheet schedule w
  = generatePDFLive_no_branch decode sheet schedule w.
Proof.
  unfold generatePDFLive, generatePDFLive_no_branch.
  apply bind_ext; [reflexivity|]. intros w0 w'.
  destruct (images w0 !! 0%nat) as [first|]; [|reflexivity].
  apply bind_ext; [reflexivity|]. intros firstImg w''. cbv zeta.
  apply bind_ext; [|reflexivity]. apply forImagesLive_no_branch_eq.
Qed.
End LiveRuns.

(** ** The claims on generation, with handlers taken into account *)

Section LiveClaims.
Context {T : Type} `{JsNumber T}.
Variable decode : string -> option HTMLImageElement.
Variable sheet : Sheet T.




(** X9: a click on the generate button, when there are images, runs
    [generatePDF] with the button disabled and labelled "Generating...",
    and then, whatever the outcome and whatever handlers ran while the
    generation was suspended, labels the button "Generate PDF" and
    disables it exactly when [images] is empty at that moment.  The
    outcome, the lists, the loads and the saved documents are those of
    [generatePDF]. *)
Theorem click_restores_the_button
    (schedule : list (list (Handler T))) (w : World T) :
  images w <> [] ->
  exists r w1,
    generatePDFLive decode sheet schedule
      {| images := images w; imageList := imageList w;
         generateBtn := {| disabled := true; textContent := "Generating..." |};
         loads := loads w; saved := saved w |}
    = (r, w1)
    /\ onGenerateClickLive decode sheet schedule w
       = (r, {| images := images w1; imageList := imageList w1;
                generateBtn := {| disabled := (length (images w1) =? 0)%nat;
                                  textContent := "Generate PDF" |};
                loads := loads w1; saved := saved w1 |}).
Proof.
  intros Hne.
  assert (Hlen : (length (images w) =? 0)%nat = false).
  { destruct (images w); [done|reflexivity]. }
  destruct (generatePDFLive decode sheet schedule
              {| images := images w; imageList := imageList w;
                 generateBtn := {| disabled := true; textContent := "Generating..." |};
                 loads := loads w; saved := saved w |}) as [r w1] eqn:Hrun.
  exists r, w1. split; [reflexivity|].
  unfold onGenerateClickLive.
  rewrite (bind_ok get _ w w w eq_refl), Hlen.
  do 2 (erewrite bind_ok by reflexivity).
  unfold try_finally.
  cbn [images imageList generateBtn disabled textContent loads saved].
  rewrite Hrun. reflexivity.
Qed.
End LiveClaims.

Lemma quiet_sample : quiet (T := Q) [[]; []; []; []].
Proof. repeat constructor. Qed.







Lemma click_restores_the_button_witness :
  generateBtn (snd (onGenerateClickLive sampleDecode a4 [[removeClick "id-1"]]
                      (worldWith [wideEntry])))
  = {| disabled := true; textContent := "Generate PDF" |}.
Proof.
  destruct (click_restores_the_button sampleDecode a4 [[removeClick "id-1"]]
              (worldWith [wideEntry]))
    as (r & w1 & Hrun & Hclick).
  - discriminate.
  - rewrite Hclick. cbn [snd generateBtn]. 
    assert (Hi : images w1 = []).
    { change w1 with (snd (r, w1)). rewrite <- Hrun. reflexivity. }
    now rewrite Hi.
Defined.
